(** * CSV aggregation job engine (backend/services/csv_processor.go)

    A shallow embedding of the asynchronous CSV processor: the job registry
    (a map from job id to a pointer to a [ProcessingResult]), the streaming
    aggregation loop of [processCSVFile], the result writer and the status
    updates, together with the properties of the engine's specification.

    The Go code is embedded as programs over a small set of atomic actions
    (lock operations, registry and heap accesses, file system calls).  The
    same programs are run on their own ([exec]) and interleaved in a pool
    of goroutines ([step]).

    Part I holds the definitions: the embedding of the source, then the
    notions the properties are stated with.  Part II holds the lemmas, the
    theorems of the specification and their instances on concrete files.
    Part III holds further properties of the code: of the registry
    operations and the worker, of the lock discipline of the interleaved
    system, of the input the benchmarks generate and of the HTTP middleware
    the server is wired with. *)

From Stdlib Require Import ZArith Lia Ascii String.
From stdpp Require Import gmap strings list fin_maps pretty.

Open Scope string_scope.
Open Scope Z_scope.

(** * Part I: definitions *)

(** ** Go's [int] (64-bit platforms) *)

Module GoInt.

Definition min_int : Z := - 2 ^ 63.

Definition max_int : Z := 2 ^ 63 - 1.

(** Two's-complement wrap-around of the result of an [int] operation. *)
Definition wrap (z : Z) : Z := (z + 2 ^ 63) mod 2 ^ 64 - 2 ^ 63.

Definition in_range (z : Z) : Prop := min_int ≤ z ≤ max_int.

Definition add (a b : Z) : Z := wrap (a + b).

(** Go's [%] truncates towards zero. *)
Definition rem (a b : Z) : Z := Z.rem a b.

End GoInt.

(** ** strconv *)

Module strconv.

Definition digit (c : ascii) : option Z :=
  let n := Z.of_nat (nat_of_ascii c) in
  if bool_decide (48 ≤ n ≤ 57) then Some (n - 48) else None.

Fixpoint digits (s : string) (acc : Z) : option Z :=
  match s with
  | EmptyString => Some acc
  | String c s' =>
      match digit c with
      | Some d => digits s' (acc * 10 + d)
      | None => None
      end
  end.

(** [strconv.Atoi]: an optional sign, then one or more decimal digits and
    nothing else; the value has to fit an [int].  [None] stands for a
    non-nil error (syntax or range). *)
Definition Atoi (s : string) : option Z :=
  let '(neg, body) :=
    match s with
    | String "-"%char rest => (true, rest)
    | String "+"%char rest => (false, rest)
    | _ => (false, s)
    end in
  match body with
  | EmptyString => None
  | _ =>
      match digits body 0 with
      | Some n =>
          let v := if neg : bool then - n else n in
          if bool_decide (GoInt.min_int ≤ v ≤ GoInt.max_int) then Some v
          else None
      | None => None
      end
  end.

(** [strconv.Itoa]: base-10 text, with a leading minus for negatives. *)
Definition Itoa (i : Z) : string := pretty i.

End strconv.

(** ** models/models.go *)

Module models.

Record ProcessingResult := {
  JobID : string;
  Status : string;
  DownloadURL : string;
  ProcessingTime : Z;
  DepartmentCount : Z;
  TotalRecords : Z;
  Error : string;
}.

(** An assignment [result.F = v] to one field of a [ProcessingResult]. *)
Inductive field_write :=
| SetStatus (v : string)
| SetDownloadURL (v : string)
| SetProcessingTime (v : Z)
| SetDepartmentCount (v : Z)
| SetTotalRecords (v : Z)
| SetError (v : string).

Definition assign (w : field_write) (r : ProcessingResult) : ProcessingResult :=
  match w with
  | SetStatus v =>
      {| JobID := JobID r; Status := v; DownloadURL := DownloadURL r;
         ProcessingTime := ProcessingTime r; DepartmentCount := DepartmentCount r;
         TotalRecords := TotalRecords r; Error := Error r |}
  | SetDownloadURL v =>
      {| JobID := JobID r; Status := Status r; DownloadURL := v;
         ProcessingTime := ProcessingTime r; DepartmentCount := DepartmentCount r;
         TotalRecords := TotalRecords r; Error := Error r |}
  | SetProcessingTime v =>
      {| JobID := JobID r; Status := Status r; DownloadURL := DownloadURL r;
         ProcessingTime := v; DepartmentCount := DepartmentCount r;
         TotalRecords := TotalRecords r; Error := Error r |}
  | SetDepartmentCount v =>
      {| JobID := JobID r; Status := Status r; DownloadURL := DownloadURL r;
         ProcessingTime := ProcessingTime r; DepartmentCount := v;
         TotalRecords := TotalRecords r; Error := Error r |}
  | SetTotalRecords v =>
      {| JobID := JobID r; Status := Status r; DownloadURL := DownloadURL r;
         ProcessingTime := ProcessingTime r; DepartmentCount := DepartmentCount r;
         TotalRecords := v; Error := Error r |}
  | SetError v =>
      {| JobID := JobID r; Status := Status r; DownloadURL := DownloadURL r;
         ProcessingTime := ProcessingTime r; DepartmentCount := DepartmentCount r;
         TotalRecords := TotalRecords r; Error := v |}
  end.

End models.
Export models.

(** ** encoding/csv, as far as the processor uses it

    A file is seen through the reader's tokenizer: the sequence of records
    it yields (blank lines are not records), each with the number of the
    line it starts on, or a tokenizer error with its message. *)

Module csv.

Inductive line :=
| Fields (lineno : Z) (fields : list string)
| Malformed (msg : string).

Inductive read_result :=
| EOF                              (* err == io.EOF *)
| Err (msg : string)               (* any other non-nil error *)
| Record (record : list string).   (* err == nil *)

Definition ErrFieldCount (lineno : Z) : string :=
  "record on line " +:+ strconv.Itoa lineno +:+ ": wrong number of fields".

(** What [Read] makes of the next tokenized record when
    [FieldsPerRecord] is positive: an error message or the record. *)
Definition check (FieldsPerRecord : nat) (l : line) : string + list string :=
  match l with
  | Malformed msg => inl msg
  | Fields n fields =>
      if (length fields =? FieldsPerRecord)%nat then inr fields
      else inl (ErrFieldCount n)
  end.

(** [reader.Read()]: the result and the reader's remaining input. *)
Definition Read (FieldsPerRecord : nat) (reader : list line)
  : read_result * list line :=
  match reader with
  | [] => (EOF, [])
  | l :: rest =>
      (match check FieldsPerRecord l with
       | inl err => Err err
       | inr record => Record record
       end, rest)
  end.

End csv.

(** ** Shared state: the processor's registry, the heap and the file system *)

Definition loc := positive.

(** A file is either an uploaded CSV text (as tokenized, see [csv]) or a
    result artifact (the records handed to [csv.Writer]). *)
Inductive file :=
| Upload (lines : list csv.line)
| Artifact (records : list (list string)).

(** The tokenizer's view of a file.  For an artifact read back as an input
    every record is taken to occupy one line. *)
Definition tokens (f : file) : list csv.line :=
  match f with
  | Upload lines => lines
  | Artifact records => imap (λ i r, csv.Fields (Z.of_nat i + 1) r) records
  end.

Definition append_record (record : list string) (f : file) : file :=
  match f with
  | Artifact records => Artifact (records ++ [record])
  | Upload lines => Upload lines
  end.

Record RWMutex := { writer : bool; readers : nat }.

Record state := {
  jobs : gmap string loc;                 (* p.jobs *)
  jobsMutex : RWMutex;                    (* p.jobsMutex *)
  heap : gmap loc ProcessingResult;       (* allocated ProcessingResult objects *)
  fs : gmap string file;                  (* files by path *)
  denied : gmap string string;            (* paths os.Create refuses, with the reason *)
  uuids : list string;                    (* ids uuid.New will return next *)
  clock : list Z;                         (* readings time.Now will return next *)
  issued : list string;                   (* ids uuid.New has returned, latest first *)
}.

Definition set_jobs (f : gmap string loc → gmap string loc) (σ : state) : state :=
  {| jobs := f (jobs σ); jobsMutex := jobsMutex σ; heap := heap σ; fs := fs σ;
     denied := denied σ; uuids := uuids σ; clock := clock σ; issued := issued σ |}.

Definition set_mutex (m : RWMutex) (σ : state) : state :=
  {| jobs := jobs σ; jobsMutex := m; heap := heap σ; fs := fs σ;
     denied := denied σ; uuids := uuids σ; clock := clock σ; issued := issued σ |}.

Definition set_heap (f : gmap loc ProcessingResult → gmap loc ProcessingResult)
    (σ : state) : state :=
  {| jobs := jobs σ; jobsMutex := jobsMutex σ; heap := f (heap σ); fs := fs σ;
     denied := denied σ; uuids := uuids σ; clock := clock σ; issued := issued σ |}.

Definition set_fs (f : gmap string file → gmap string file) (σ : state) : state :=
  {| jobs := jobs σ; jobsMutex := jobsMutex σ; heap := heap σ; fs := f (fs σ);
     denied := denied σ; uuids := uuids σ; clock := clock σ; issued := issued σ |}.

Definition draw_uuid (u : string) (rest : list string) (σ : state) : state :=
  {| jobs := jobs σ; jobsMutex := jobsMutex σ; heap := heap σ; fs := fs σ;
     denied := denied σ; uuids := rest; clock := clock σ; issued := u :: issued σ |}.

Definition set_clock (c : list Z) (σ : state) : state :=
  {| jobs := jobs σ; jobsMutex := jobsMutex σ; heap := heap σ; fs := fs σ;
     denied := denied σ; uuids := uuids σ; clock := c; issued := issued σ |}.

Definition unlocked : RWMutex := {| writer := false; readers := 0 |}.

(** ** Atomic actions and programs *)

Inductive action :=
| Lock | Unlock | RLock | RUnlock          (* on p.jobsMutex *)
| JobsLoad (jobID : string)                (* p.jobs[jobID] *)
| JobsStore (jobID : string) (l : loc)     (* p.jobs[jobID] = result *)
| New (r : ProcessingResult)               (* &models.ProcessingResult{...} *)
| Assign (l : loc) (w : field_write)       (* result.F = v *)
| Deref (l : loc)                          (* reading the fields of *result *)
| os_Open (name : string)
| os_Create (name : string)
| csv_Write (name : string) (record : list string)
| os_Remove (name : string)
| time_Now
| uuid_New
| Go (jobID filePath : string).            (* go p.processCSVFile(jobID, filePath) *)

Definition resp (a : action) : Type :=
  match a with
  | Lock | Unlock | RLock | RUnlock => unit
  | JobsLoad _ => option loc
  | JobsStore _ _ => unit
  | New _ => loc
  | Assign _ _ => unit
  | Deref _ => ProcessingResult
  | os_Open _ => (string + list csv.line)%type
  | os_Create _ => option string
  | csv_Write _ _ => unit
  | os_Remove _ => unit
  | time_Now => Z
  | uuid_New => string
  | Go _ _ => unit
  end.

Inductive prog (A : Type) : Type :=
| Ret (a : A)
| Panic
| Vis (a : action) (k : resp a → prog A).
Arguments Ret {A} a.
Arguments Panic {A}.
Arguments Vis {A} a k.

Fixpoint bind {A B} (p : prog A) (f : A → prog B) : prog B :=
  match p with
  | Ret a => f a
  | Panic => Panic
  | Vis a k => Vis a (λ r, bind (k r) f)
  end.

#[export] Instance prog_ret : MRet prog := @Ret.
#[export] Instance prog_bind : MBind prog := λ A B f p, bind p f.

Definition act (a : action) : prog (resp a) := Vis a Ret.

(** The outcome of an action or of a run. *)
Inductive result (A : Type) : Type :=
| Ok (a : A) (σ : state)
| Blocked            (* waits for the mutex *)
| Fault.             (* run-time panic *)
Arguments Ok {A} a σ.
Arguments Blocked {A}.
Arguments Fault {A}.

Definition perform (a : action) (σ : state) : result (resp a) :=
  match a as a' return result (resp a') with
  | Lock =>
      let m := jobsMutex σ in
      if writer m then Blocked
      else match readers m with
           | O => Ok tt (set_mutex {| writer := true; readers := 0 |} σ)
           | S _ => Blocked
           end
  | Unlock =>
      let m := jobsMutex σ in
      if writer m then Ok tt (set_mutex {| writer := false; readers := readers m |} σ)
      else Fault
  | RLock =>
      let m := jobsMutex σ in
      if writer m then Blocked
      else Ok tt (set_mutex {| writer := false; readers := S (readers m) |} σ)
  | RUnlock =>
      let m := jobsMutex σ in
      match readers m with
      | O => Fault
      | S n => Ok tt (set_mutex {| writer := writer m; readers := n |} σ)
      end
  | JobsLoad jobID => Ok (jobs σ !! jobID) σ
  | JobsStore jobID l => Ok tt (set_jobs <[jobID := l]> σ)
  | New r =>
      let l := fresh (dom (heap σ)) in
      Ok l (set_heap <[l := r]> σ)
  | Assign l w =>
      match heap σ !! l with
      | Some r => Ok tt (set_heap <[l := assign w r]> σ)
      | None => Fault
      end
  | Deref l =>
      match heap σ !! l with
      | Some r => Ok r σ
      | None => Fault
      end
  | os_Open name =>
      match fs σ !! name with
      | Some f => Ok (inr (tokens f)) σ
      | None => Ok (inl ("open " +:+ name +:+ ": no such file or directory")) σ
      end
  | os_Create name =>
      match denied σ !! name with
      | Some why => Ok (Some ("open " +:+ name +:+ ": " +:+ why)) σ
      | None => Ok None (set_fs <[name := Artifact []]> σ)
      end
  | csv_Write name record => Ok tt (set_fs (alter (append_record record) name) σ)
  | os_Remove name => Ok tt (set_fs (delete name) σ)
  | time_Now => Ok (default 0 (head (clock σ))) (set_clock (tail (clock σ)) σ)
  | uuid_New =>
      match uuids σ with
      | u :: rest => Ok u (draw_uuid u rest σ)
      | [] => Fault
      end
  | Go _ _ => Ok tt σ
  end.

(** Running a program on its own, without interleaving. *)
Fixpoint exec {A} (p : prog A) (σ : state) : result A :=
  match p with
  | Ret a => Ok a σ
  | Panic => Fault
  | Vis a k =>
      match perform a σ with
      | Ok r σ' => exec (k r) σ'
      | Blocked => Blocked
      | Fault => Fault
      end
  end.

Definition then_run {A B} (r : result A) (f : A → prog B) : result B :=
  match r with
  | Ok a σ => exec (f a) σ
  | Blocked => Blocked
  | Fault => Fault
  end.

(** ** The library functions left to the platform

    [filepath.Join] and [filepath.Base] are taken as given, and so is the
    order in which [range] visits a map: Go leaves it unspecified, every
    order being a permutation of the entries. *)

Class Runtime := {
  filepath_Join : string → string → string;
  filepath_Base : string → string;
  map_range : gmap string Z → list (string * Z);
  map_range_perm m : map_range m ≡ₚ map_to_list m;
}.

(** ** services/csv_processor.go *)

(** The fields of [CSVProcessor] that never change; [jobs] and [jobsMutex]
    live in the shared [state]. *)
Record CSVProcessor := { uploadDir : string; resultDir : string }.

Definition batchSize : Z := 1000.

(** [record[i]] on a slice: an index out of range panics. *)
Definition index (record : list string) (i : nat) : prog string :=
  match record !! i with
  | Some s => Ret s
  | None => Panic
  end.

(** The state a processor starts from: an empty registry in a given
    environment.  ([os.MkdirAll] only creates directories, which the file
    system model does not track.) *)
Definition NewCSVProcessor_state (files : gmap string file)
    (refused : gmap string string) (ids : list string) (times : list Z) : state :=
  {| jobs := ∅; jobsMutex := unlocked; heap := ∅; fs := files;
     denied := refused; uuids := ids; clock := times; issued := [] |}.

Definition NewCSVProcessor (uploadDir resultDir : string) : CSVProcessor :=
  {| uploadDir := uploadDir; resultDir := resultDir |}.

(** The record [ProcessCSVAsync] allocates:
    [&models.ProcessingResult{JobID: jobID, Status: "processing"}]. *)
Definition new_job (jobID : string) : ProcessingResult :=
  {| JobID := jobID; Status := "processing"; DownloadURL := "";
     ProcessingTime := 0; DepartmentCount := 0; TotalRecords := 0; Error := "" |}.

Definition ProcessCSVAsync (filePath : string) : prog string :=
  jobID ← act uuid_New;
  result ← act (New (new_job jobID));
  act Lock;;
  act (JobsStore jobID result);;
  act Unlock;;
  act (Go jobID filePath);;
  mret jobID.

Definition GetJobStatus (jobID : string) : prog (option loc * bool) :=
  act RLock;;
  result ← act (JobsLoad jobID);
  act RUnlock;;
  mret (result, bool_decide (is_Some result)).

Definition updateJobError (jobID errorMsg : string) : prog unit :=
  act Lock;;
  found ← act (JobsLoad jobID);
  match found with
  | Some result =>
      act (Assign result (SetStatus "error"));;
      act (Assign result (SetError errorMsg))
  | None => mret tt
  end;;
  act Unlock.

Definition updateJobProgress (jobID : string) (recordsProcessed : Z) : prog unit :=
  act Lock;;
  found ← act (JobsLoad jobID);
  match found with
  | Some result => act (Assign result (SetTotalRecords recordsProcessed))
  | None => mret tt
  end;;
  act Unlock.

Definition result_header : list string :=
  ["Department Name"; "Total Number of Sales"].

Section services.
Context `{Runtime}.
Variable p : CSVProcessor.

(** The [for department, total := range departmentTotals] loop. *)
Fixpoint write_records (outputPath : string) (entries : list (string * Z))
  : prog (option string) :=
  match entries with
  | [] => mret None
  | (department, total) :: entries =>
      act (csv_Write outputPath [department; strconv.Itoa total]);;
      write_records outputPath entries
  end.

(** Returns the error, if any. *)
Definition writeResultCSV (outputPath : string)
    (departmentTotals : gmap string Z) : prog (option string) :=
  err ← act (os_Create outputPath);
  match err with
  | Some e => mret (Some e)
  | None =>
      act (csv_Write outputPath result_header);;
      write_records outputPath (map_range departmentTotals)
  end.

(** The streaming loop of [processCSVFile] over the reader's remaining
    input.  [None]: the job was failed and the function returned;
    [Some]: the loop ended at [io.EOF]. *)
Fixpoint read_loop (jobID : string) (reader : list csv.line)
    (departmentTotals : gmap string Z) (recordCount : Z)
  : prog (option (gmap string Z * Z)) :=
  match reader with
  | [] => mret (Some (departmentTotals, recordCount))           (* io.EOF *)
  | l :: reader =>
      match csv.check 3 l with
      | inl err =>
          updateJobError jobID ("Error reading CSV: " +:+ err);;
          mret None
      | inr record =>
          field ← index record 2;
          match strconv.Atoi field with
          | None => read_loop jobID reader departmentTotals recordCount
          | Some sales =>
              department ← index record 0;
              let departmentTotals :=
                <[department :=
                    GoInt.add (default 0 (departmentTotals !! department)) sales]>
                  departmentTotals in
              let recordCount := GoInt.add recordCount 1 in
              (if bool_decide (GoInt.rem recordCount batchSize = 0)
               then updateJobProgress jobID recordCount
               else mret tt);;
              read_loop jobID reader departmentTotals recordCount
          end
      end
  end.

Definition processCSVFile (jobID filePath : string) : prog unit :=
  startTime ← act time_Now;
  act Lock;;
  result ← act (JobsLoad jobID);
  act Unlock;;
  opened ← act (os_Open filePath);
  match opened return prog unit with
  | inl err => updateJobError jobID ("Failed to open file: " +:+ err)
  | inr reader =>
      match csv.Read 3 reader return prog unit with
      | (csv.EOF, _) => updateJobError jobID "Failed to read header: EOF"
      | (csv.Err err, _) =>
          updateJobError jobID ("Failed to read header: " +:+ err)
      | (csv.Record _, reader) =>
          looped ← read_loop jobID reader ∅ 0;
          match looped return prog unit with
          | None => mret tt
          | Some (departmentTotals, recordCount) =>
              let outputPath :=
                filepath_Join (resultDir p) ("result_" +:+ jobID +:+ ".csv") in
              err ← writeResultCSV outputPath departmentTotals;
              match err return prog unit with
              | Some e => updateJobError jobID ("Failed to write result: " +:+ e)
              | None =>
                  now ← act time_Now;
                  let processingTime := now - startTime in
                  act Lock;;
                  match result return prog unit with
                  | None => Panic                    (* nil pointer *)
                  | Some result =>
                      act (Assign result (SetStatus "completed"));;
                      act (Assign result
                             (SetDownloadURL ("/download/" +:+ filepath_Base outputPath)));;
                      act (Assign result (SetProcessingTime processingTime));;
                      act (Assign result
                             (SetDepartmentCount (Z.of_nat (size departmentTotals))));;
                      act (Assign result (SetTotalRecords recordCount))
                  end;;
                  act Unlock;;
                  act (os_Remove filePath)
              end
          end
      end
  end.

Definition GetResultFilePath (filename : string) : string :=
  filepath_Join (resultDir p) filename.

End services.

(** ** The states of one job's run *)

(** The job [jobID] is in the registry at [l] with record [r], and nobody
    holds the mutex. *)
Definition registered (σ : state) (jobID : string) (l : loc)
    (r : ProcessingResult) : Prop :=
  jobsMutex σ = unlocked ∧ jobs σ !! jobID = Some l ∧ heap σ !! l = Some r.

(** The shape of the states a worker passes through: the state it started
    from, with the record of its job, the files and the clock replaced. *)
Definition at_job (σ : state) (l : loc) (r : ProcessingResult)
    (files : gmap string file) (times : list Z) (m : RWMutex) : state :=
  {| jobs := jobs σ; jobsMutex := m; heap := <[l := r]> (heap σ); fs := files;
     denied := denied σ; uuids := uuids σ; clock := times; issued := issued σ |}.

Definition failed (errorMsg : string) (r : ProcessingResult) : ProcessingResult :=
  assign (SetError errorMsg) (assign (SetStatus "error") r).

Definition final_state {A} (r : result A) : option state :=
  match r with Ok _ σ => Some σ | _ => None end.

Definition job_of (jobID : string) (σ : state) : option ProcessingResult :=
  l ← jobs σ !! jobID; heap σ !! l.

(** ** The streaming loop as a fold

    What [read_loop] computes, without the registry: the totals, the number
    of accepted records, the last value it checkpointed (starting from a
    given one) and the message it failed with, if any. *)

Record scanned := {
  totals : gmap string Z;
  accepted : Z;
  checkpoint : Z;
  failure : option string;
}.

Definition add_sale (department : string) (sales : Z) (t : gmap string Z)
  : gmap string Z :=
  <[department := GoInt.add (default 0 (t !! department)) sales]> t.

Fixpoint scan (reader : list csv.line) (t : gmap string Z) (count cp : Z)
  : scanned :=
  match reader with
  | [] => {| totals := t; accepted := count; checkpoint := cp; failure := None |}
  | csv.Fields _ [department; _; field] :: reader =>
      match strconv.Atoi field with
      | None => scan reader t count cp
      | Some sales =>
          let count := GoInt.add count 1 in
          scan reader (add_sale department sales t) count
            (if bool_decide (GoInt.rem count batchSize = 0) then count else cp)
      end
  | csv.Fields n _ :: _ =>
      {| totals := t; accepted := count; checkpoint := cp;
         failure := Some ("Error reading CSV: " +:+ csv.ErrFieldCount n) |}
  | csv.Malformed msg :: _ =>
      {| totals := t; accepted := count; checkpoint := cp;
         failure := Some ("Error reading CSV: " +:+ msg) |}
  end.

Definition add_sales (sales : list (string * Z)) (t : gmap string Z) : gmap string Z :=
  foldl (λ t e, add_sale e.1 e.2 t) t sales.

Section closed_form.
Context `{Runtime}.
Variable p : CSVProcessor.

(** The row written for one entry of the totals. *)
Definition encode (entry : string * Z) : list string :=
  [entry.1; strconv.Itoa entry.2].

Definition artifact (t : gmap string Z) : file :=
  Artifact (result_header :: map encode (map_range t)).

Definition outputPath (jobID : string) : string :=
  filepath_Join (resultDir p) ("result_" +:+ jobID +:+ ".csv").

Definition completed (url : string) (elapsed departments records : Z)
    (r : ProcessingResult) : ProcessingResult :=
  assign (SetTotalRecords records)
    (assign (SetDepartmentCount departments)
       (assign (SetProcessingTime elapsed)
          (assign (SetDownloadURL url) (assign (SetStatus "completed") r)))).

(** The state one uninterrupted run of [processCSVFile] ends in, for a
    job registered at [l] with record [r]. *)
Definition processed (jobID filePath : string) (σ : state) (l : loc)
    (r : ProcessingResult) : state :=
  let startTime := default 0 (head (clock σ)) in
  let times := tail (clock σ) in
  let fail msg cp :=
    at_job σ l (failed msg (assign (SetTotalRecords cp) r)) (fs σ) times unlocked in
  match fs σ !! filePath with
  | None =>
      fail ("Failed to open file: open " +:+ filePath +:+ ": no such file or directory")
        (TotalRecords r)
  | Some f =>
      match tokens f with
      | [] => fail "Failed to read header: EOF" (TotalRecords r)
      | header :: reader =>
          match csv.check 3 header with
          | inl err => fail ("Failed to read header: " +:+ err) (TotalRecords r)
          | inr _ =>
              let s := scan reader ∅ 0 (TotalRecords r) in
              match failure s with
              | Some msg => fail msg (checkpoint s)
              | None =>
                  match denied σ !! outputPath jobID with
                  | Some why =>
                      fail ("Failed to write result: open " +:+ outputPath jobID
                            +:+ ": " +:+ why) (checkpoint s)
                  | None =>
                      at_job σ l
                        (completed ("/download/" +:+ filepath_Base (outputPath jobID))
                           (default 0 (head times) - startTime)
                           (Z.of_nat (size (totals s))) (accepted s) r)
                        (delete filePath
                           (<[outputPath jobID := artifact (totals s)]> (fs σ)))
                        (tail times) unlocked
                  end
              end
          end
      end
  end.

End closed_form.

(** ** The rows of an input file, as the specification speaks of them *)

(** A row of exactly three fields. *)
Definition three_fields (l : csv.line) : Prop :=
  ∃ n category date count, l = csv.Fields n [category; date; count].

(** The category and the count of a row of three fields whose count field
    parses as an integer. *)
Definition parsed (l : csv.line) : option (string * Z) :=
  match l with
  | csv.Fields _ [category; _; count] =>
      match strconv.Atoi count with
      | Some v => Some (category, v)
      | None => None
      end
  | _ => None
  end.

Definition well_formed (l : csv.line) : Prop := is_Some (parsed l).

(** A row of three fields whose count field does not parse. *)
Definition unparsable (l : csv.line) : Prop :=
  ∃ n category date count,
    l = csv.Fields n [category; date; count] ∧ strconv.Atoi count = None.

(** A row whose number of fields is not three. *)
Definition misshapen (l : csv.line) : Prop :=
  ∃ n fields, l = csv.Fields n fields ∧ length fields ≠ 3%nat.

Definition sales_of (rows : list csv.line) : list (string * Z) := omap parsed rows.

(** The exact integer sum of the counts of one category. *)
Definition total_in (category : string) (sales : list (string * Z)) : Z :=
  foldr (λ e acc, if decide (e.1 = category) then e.2 + acc else acc) 0 sales.

Definition exact_total (category : string) (rows : list csv.line) : Z :=
  total_in category (sales_of rows).

(** The distinct categories, in order of first appearance. *)
Definition categories (rows : list csv.line) : list string :=
  remove_dups (sales_of rows).*1.

(** Two final states that agree on the registry, the job records and every
    file but the input, which is either gone in both or present in both. *)
Definition same_outcome (filePath : string) (σ1 σ2 : state) : Prop :=
  jobs σ1 = jobs σ2 ∧ heap σ1 = heap σ2 ∧ jobsMutex σ1 = jobsMutex σ2 ∧
  (∀ path, path ≠ filePath → fs σ1 !! path = fs σ2 !! path) ∧
  (fs σ1 !! filePath = None ↔ fs σ2 !! filePath = None).

Definition same_check (h1 h2 : csv.line) : Prop :=
  match csv.check 3 h1, csv.check 3 h2 with
  | inl e1, inl e2 => e1 = e2
  | inr _, inr _ => True
  | _, _ => False
  end.

(** ** Goroutines running interleaved *)

Record config := {
  shared : state;
  pool : list (prog unit);      (* what each goroutine has left to do *)
}.

(** A caller of [GetJobStatus] reads the fields of the result it was given,
    outside the lock, as the tests and the status handler do. *)
Definition query (jobID : string) : prog unit :=
  '(result, found) ← GetJobStatus jobID;
  match result with
  | Some l => act (Deref l);; mret tt
  | None => mret tt
  end.

Definition submit (filePath : string) : prog unit :=
  ProcessCSVAsync filePath;; mret tt.

(** What the environment may change: files, refusals, and what the clock
    and the id generator will return; the registry, its lock and the job
    records belong to the processor. *)
Definition same_registry (σ σ' : state) : Prop :=
  jobs σ' = jobs σ ∧ jobsMutex σ' = jobsMutex σ ∧ heap σ' = heap σ ∧
  issued σ' = issued σ.

Section interleaving.
Context `{Runtime}.
Variable p : CSVProcessor.

Definition spawned (a : action) : list (prog unit) :=
  match a with
  | Go jobID filePath => [processCSVFile p jobID filePath]
  | _ => []
  end.

Inductive step : config → config → Prop :=
| step_goroutine c i a k r σ' :
    pool c !! i = Some (Vis a k) →
    perform a (shared c) = Ok r σ' →
    step c {| shared := σ'; pool := <[i := k r]> (pool c) ++ spawned a |}
| step_submit c filePath :
    step c {| shared := shared c; pool := pool c ++ [submit filePath] |}
| step_query c jobID :
    step c {| shared := shared c; pool := pool c ++ [query jobID] |}
| step_world c σ' :
    same_registry (shared c) σ' →
    step c {| shared := σ'; pool := pool c |}.

Definition initial (files : gmap string file) (refused : gmap string string)
    (ids : list string) (times : list Z) : config :=
  {| shared := NewCSVProcessor_state files refused ids times; pool := [] |}.

Definition reachable (c : config) : Prop :=
  ∃ files refused ids times, rtc step (initial files refused ids times) c.

(** A scheduler, to build reachable configurations by computation. *)

Inductive move :=
| Run (i : nat)                 (* goroutine [i] performs its next action *)
| Submit (filePath : string)    (* a caller enters [ProcessCSVAsync] *)
| Query (jobID : string).       (* a caller enters [GetJobStatus] *)

Definition play1 (m : move) (c : config) : option config :=
  match m with
  | Run i =>
      match pool c !! i with
      | Some (Vis a k) =>
          match perform a (shared c) with
          | Ok r σ' =>
              Some {| shared := σ'; pool := <[i := k r]> (pool c) ++ spawned a |}
          | _ => None
          end
      | _ => None
      end
  | Submit filePath =>
      Some {| shared := shared c; pool := pool c ++ [submit filePath] |}
  | Query jobID =>
      Some {| shared := shared c; pool := pool c ++ [query jobID] |}
  end.

Fixpoint play (ms : list move) (c : config) : option config :=
  match ms with
  | [] => Some c
  | m :: ms =>
      match play1 m c with
      | Some c' => play ms c'
      | None => None
      end
  end.

(** The configuration a schedule leads to from the start (the start
    itself if the schedule asks for a move that is not possible). *)
Definition played (ms : list move) (files : gmap string file)
    (refused : gmap string string) (ids : list string) (times : list Z) : config :=
  default (initial files refused ids times)
    (play ms (initial files refused ids times)).

End interleaving.

(** ** What the programs of the processor may do *)

Definition valid_status (s : string) : Prop :=
  s = "processing" ∨ s = "completed" ∨ s = "error".

(** An action that writes only valid statuses and registers only ids that
    [uuid.New] has returned. *)
Definition action_ok (ids : list string) (a : action) : Prop :=
  match a with
  | New r => valid_status (Status r)
  | Assign _ (SetStatus s) => valid_status s
  | JobsStore jobID _ => jobID ∈ ids
  | _ => True
  end.

(** The ids returned so far, after an action and its response. *)
Definition ids_after (ids : list string) (a : action) : resp a → list string :=
  match a as a' return resp a' → list string with
  | uuid_New => λ u, u :: ids
  | _ => λ _, ids
  end.

Fixpoint tame {A} (q : prog A) (ids : list string) : Prop :=
  match q with
  | Ret _ | Panic => True
  | Vis a k => action_ok ids a ∧ ∀ r, tame (k r) (ids_after ids a r)
  end.

Definition invariant (c : config) : Prop :=
  (∀ l r, heap (shared c) !! l = Some r → valid_status (Status r)) ∧
  (∀ jobID, is_Some (jobs (shared c) !! jobID) → jobID ∈ issued (shared c)) ∧
  Forall (λ q, tame q (issued (shared c))) (pool c).

(** ** Concrete inputs *)

(** A runtime to evaluate examples with: paths are joined with a slash, the
    base name is what follows the last slash, and a map is visited in the
    order of [map_to_list]. *)
Fixpoint base_from (acc : string) (s : string) : string :=
  match s with
  | EmptyString => acc
  | String c s' =>
      if bool_decide (c = "/"%char) then base_from "" s'
      else base_from (acc +:+ String c "") s'
  end.

#[export] Instance plain_runtime : Runtime := {|
  filepath_Join dir name := dir +:+ "/" +:+ name;
  filepath_Base path := base_from "" path;
  map_range m := map_to_list m;
  map_range_perm m := reflexivity (map_to_list m);
|}.

Definition header_line : csv.line :=
  csv.Fields 1 ["Department Name"; "Date"; "Number of Sales"].

Definition demo_lines : list csv.line :=
  [ header_line;
    csv.Fields 2 ["Sales"; "2023-01-15"; "150"];
    csv.Fields 3 ["Marketing"; "2023-01-15"; "75"];
    csv.Fields 4 ["Sales"; "2023-01-16"; "200"] ].

Definition demo_processor : CSVProcessor := NewCSVProcessor "uploads" "results".

Definition demo_state (lines : list csv.line) : state :=
  NewCSVProcessor_state {[ "uploads/in.csv" := Upload lines ]} ∅ ["job-1"] [10; 25].

Definition demo_run (lines : list csv.line) : result unit :=
  then_run (exec (ProcessCSVAsync "uploads/in.csv") (demo_state lines))
    (λ jobID, processCSVFile demo_processor jobID "uploads/in.csv").

(** The state right after [ProcessCSVAsync "uploads/in.csv"] returned
    "job-1", before the worker has run. *)
Definition demo_submitted (lines : list csv.line) : state :=
  default (demo_state lines)
    (final_state (exec (ProcessCSVAsync "uploads/in.csv") (demo_state lines))).

Definition demo_job : loc := 1%positive.

Definition overflow_rows : list csv.line :=
  [ csv.Fields 2 ["Sales"; "2024-01-01"; "9223372036854775807"];
    csv.Fields 3 ["Sales"; "2024-01-02"; "1"] ].

Definition thousand_rows : list csv.line :=
  (λ i, csv.Fields (Z.of_nat i + 2) ["Sales"; "2024-01-01"; "1"]) <$> seq 0 1000.

Definition short_row : csv.line := csv.Fields 1002 ["Sales"; "2024-01-02"].

(** A run of the whole system: a submission, its worker run to the end. *)
Definition demo_schedule : list move :=
  [Submit "uploads/in.csv"] ++ replicate 6 (Run 0%nat) ++ replicate 18 (Run 1%nat).

Definition demo_config : config :=
  played demo_processor demo_schedule
    {[ "uploads/in.csv" := Upload demo_lines ]} ∅ ["job-1"] [10; 25].

(** The worker of "job-1" has just written [Status = "completed"] and
    still holds the lock; a caller that was given the job's pointer before
    reads the record without the lock and finds the other fields of the
    completion not yet written. *)
Definition racing_schedule : list move :=
  [Submit "uploads/in.csv"] ++ replicate 6 (Run 0%nat)
  ++ [Query "job-1"] ++ replicate 3 (Run 2%nat)
  ++ replicate 12 (Run 1%nat).

Definition racing_config : config :=
  played demo_processor racing_schedule
    {[ "uploads/in.csv" := Upload demo_lines ]} ∅ ["job-1"] [10; 25].

(** ** The lock discipline

    What a goroutine holds of [jobsMutex], what it may do in each case,
    and what it knows of the registry: ids that are registered and records
    that are allocated, with the [JobID] they were allocated with. *)

Inductive mode := Free | Writing | Reading.

#[export] Instance mode_eq_dec : EqDecision mode.
Proof. solve_decision. Defined.

(** The [JobID] of each allocated record. *)
Definition owners (σ : state) : gmap loc string := JobID <$> heap σ.

(** The registry and the records are touched under the lock only, written
    under the write lock only, and nothing else is done while the lock is
    held; pointers that are used point to allocated records. *)
Definition action_safe (J : gset string) (L : gmap loc string) (m : mode)
    (a : action) : Prop :=
  match a with
  | Lock | RLock => m = Free
  | Unlock => m = Writing
  | RUnlock => m = Reading
  | JobsLoad _ => m ≠ Free
  | JobsStore jobID l => m = Writing ∧ L !! l = Some jobID
  | Assign l _ => m = Writing ∧ is_Some (L !! l)
  | Deref l => m = Free ∧ is_Some (L !! l)
  | Go jobID _ => m = Free ∧ jobID ∈ J
  | New _ | os_Open _ | os_Create _ | csv_Write _ _ | os_Remove _
  | time_Now | uuid_New => m = Free
  end.

(** What a response tells about the registry it was given in. *)
Definition resp_ok (a : action) : resp a → gset string → gmap loc string → Prop :=
  match a as a' return resp a' → gset string → gmap loc string → Prop with
  | JobsLoad jobID => λ r J L,
      match r with
      | Some l => L !! l = Some jobID
      | None => jobID ∉ J
      end
  | New _ => λ l _ L, L !! l = None
  | _ => λ _ _ _, True
  end.

Definition jobs_after (a : action) (J : gset string) : gset string :=
  match a with
  | JobsStore jobID _ => {[jobID]} ∪ J
  | _ => J
  end.

Definition records_after (a : action) : resp a → gmap loc string → gmap loc string :=
  match a as a' return resp a' → gmap loc string → gmap loc string with
  | New r => λ l L, <[l := JobID r]> L
  | _ => λ _ L, L
  end.

Definition mode_after (a : action) (m : mode) : mode :=
  match a with
  | Lock => Writing
  | RLock => Reading
  | Unlock | RUnlock => Free
  | _ => m
  end.

(** A program that keeps the discipline and does not panic, whatever the
    other goroutines add to the registry meanwhile, and ends in [Q]. *)
Fixpoint wp {A} (q : prog A)
    (Q : A → gset string → gmap loc string → mode → Prop)
    (J : gset string) (L : gmap loc string) (m : mode) : Prop :=
  match q with
  | Ret a => Q a J L m
  | Panic => False
  | Vis a k =>
      action_safe J L m a ∧
      ∀ r J' L', J ⊆ J' → L ⊆ L' → resp_ok a r J' L' →
                 wp (k r) Q (jobs_after a J') (records_after a r L') (mode_after a m)
  end.

(** A goroutine that, in addition, holds no lock when it ends. *)
Definition safe (q : prog unit) (J : gset string) (L : gmap loc string)
    (m : mode) : Prop :=
  wp q (λ _ _ _ m', m' = Free) J L m.

Fixpoint holders (m : mode) (modes : list mode) : nat :=
  match modes with
  | [] => 0
  | m' :: modes => (if decide (m' = m) then 1 else 0) + holders m modes
  end.

(** The mutex counts the goroutines that hold it. *)
Definition held (mu : RWMutex) (modes : list mode) : Prop :=
  readers mu = holders Reading modes ∧
  holders Writing modes = (if writer mu then 1 else 0)%nat ∧
  (writer mu = true → readers mu = 0%nat).

Definition registry_ok (σ : state) : Prop :=
  ∀ jobID l, jobs σ !! jobID = Some l → owners σ !! l = Some jobID.

Definition coherent (c : config) : Prop :=
  ∃ modes,
    Forall2 (λ q m, safe q (dom (jobs (shared c))) (owners (shared c)) m)
      (pool c) modes ∧
    held (jobsMutex (shared c)) modes ∧
    registry_ok (shared c).

(** The accesses the lock is there for. *)
Definition writes (a : action) : Prop :=
  match a with
  | JobsStore _ _ | Assign _ _ => True
  | _ => False
  end.

Definition accesses (a : action) : Prop :=
  match a with
  | JobsLoad _ | JobsStore _ _ | Assign _ _ => True
  | _ => False
  end.

(** What a goroutine does between taking the lock and releasing it. *)
Definition critical (a : action) : bool :=
  match a with
  | JobsLoad _ | JobsStore _ _ | Assign _ _ | Unlock | RUnlock => true
  | _ => false
  end.

(** A goroutine whose next action is one of those. *)
Definition in_critical_section (q : prog unit) : bool :=
  match q with
  | Vis a _ => critical a
  | _ => false
  end.

(** The number of goroutines inside a critical section. *)
Definition busy (pool : list (prog unit)) : nat :=
  length (filter (λ q, in_critical_section q = true) pool).


(** ** services: the input of the benchmarks ([createBenchmarkCSV]) *)

Definition departments : list string :=
  ["Sales"; "Marketing"; "IT"; "HR"; "Finance"].

(** [s[i]] for an [int] index: a negative index panics as well. *)
Definition index_int (s : list string) (i : Z) : prog string :=
  if bool_decide (0 ≤ i) then index s (Z.to_nat i) else Panic.

(** The loop [for i := 0; i < recordCount; i++], with [n] iterations to go
    from [i] on. *)
Fixpoint benchmark_rows (filename : string) (n : nat) (i : Z) : prog unit :=
  match n with
  | O => mret tt
  | S n =>
      dept ← index_int departments (GoInt.rem i (Z.of_nat (length departments)));
      let sales := strconv.Itoa (GoInt.add (GoInt.rem i 1000) 1) in
      let date := "2024-01-01" in
      act (csv_Write filename [dept; date; sales]);;
      benchmark_rows filename n (GoInt.add i 1)
  end.

(** Returns the message of [b.Fatalf] when the file cannot be created. *)
Definition createBenchmarkCSV (filename : string) (recordCount : Z)
  : prog (option string) :=
  err ← act (os_Create filename);
  match err with
  | Some e => mret (Some ("Failed to create benchmark file: " +:+ e))
  | None =>
      act (csv_Write filename ["Department Name"; "Date"; "Number of Sales"]);;
      benchmark_rows filename (Z.to_nat recordCount) 0;;
      mret None
  end.

(** The setup of a benchmark and the work of its first iteration: the file
    is created and submitted, and the worker runs to its end.  ([b.Fatalf]
    ends the benchmark.) *)
Definition benchmark_run `{Runtime} (p : CSVProcessor) (testFile : string)
    (recordCount : Z) : prog unit :=
  fatal ← createBenchmarkCSV testFile recordCount;
  match fatal with
  | Some _ => mret tt
  | None =>
      jobID ← ProcessCSVAsync testFile;
      processCSVFile p jobID testFile
  end.

(** The [i]-th data row of a benchmark file. *)
Definition bench_dept (i : nat) : string := default "" (departments !! (i `mod` 5)%nat).

Definition bench_count (i : nat) : Z := Z.of_nat (i `mod` 1000) + 1.

Definition bench_row (i : nat) : list string :=
  [bench_dept i; "2024-01-01"; strconv.Itoa (bench_count i)].


(** ** github.com/gin-gonic/gin, as far as the middleware uses it

    A request is its method and its headers; a context carries the request,
    the position in the handler chain and the response being built.  A
    handler is given [c.Next] as a function. *)

Module gin.

Record Request := {
  Method : string;
  Header_Get : string → string;       (* c.Request.Header.Get(key) *)
}.

(** [gin.H] with string values. *)
Definition H := list (string * string).

Record Context := {
  request : Request;
  index : Z;                          (* the handler being run *)
  status : Z;                         (* the response status *)
  header : gmap string string;        (* c.Writer.Header() *)
  body : option H;                    (* the JSON body written, if any *)
}.

Definition HandlerFunc := (Context → Context) → Context → Context.

Definition abortIndex : Z := 63.

Definition set_index (i : Z) (c : Context) : Context :=
  {| request := request c; index := i; status := status c;
     header := header c; body := body c |}.

Definition GetHeader (c : Context) (key : string) : string :=
  Header_Get (request c) key.

(** [c.Header(key, value)]: an empty value removes the header. *)
Definition Header (key value : string) (c : Context) : Context :=
  {| request := request c; index := index c; status := status c;
     header := if decide (value = "") then delete key (header c)
               else <[key := value]> (header c);
     body := body c |}.

Definition Status (code : Z) (c : Context) : Context :=
  {| request := request c; index := index c; status := code;
     header := header c; body := body c |}.

(** [c.JSON(code, obj)]: the status, the content type unless one is set,
    and the body. *)
Definition JSON (code : Z) (obj : H) (c : Context) : Context :=
  {| request := request c; index := index c; status := code;
     header := match header c !! "Content-Type" with
               | Some _ => header c
               | None => <["Content-Type" := "application/json; charset=utf-8"]> (header c)
               end;
     body := Some obj |}.

Definition Abort (c : Context) : Context := set_index abortIndex c.

Definition AbortWithStatus (code : Z) (c : Context) : Context :=
  Abort (Status code c).

(** The loop of [c.Next]:
    [for c.index < len(c.handlers) { c.handlers[c.index](c); c.index++ }],
    which runs at most [len(c.handlers)] times. *)
Fixpoint loop (next : Context → Context) (handlers : list HandlerFunc)
    (n : nat) (c : Context) : Context :=
  match n with
  | O => c
  | S n =>
      if bool_decide (0 ≤ index c < Z.of_nat (length handlers)) then
        match handlers !! Z.to_nat (index c) with
        | Some h =>
            let c := h next c in
            loop next handlers n (set_index (index c + 1) c)
        | None => c
        end
      else c
  end.

(** [c.Next], nested at most [depth] deep. *)
Fixpoint Next (handlers : list HandlerFunc) (depth : nat) (c : Context) : Context :=
  match depth with
  | O => c
  | S depth =>
      loop (Next handlers depth) handlers (length handlers)
        (set_index (index c + 1) c)
  end.

(** Serving a request: a fresh context ([index = -1], status 200), then
    [c.Next()].  A call of [Next] from a handler moves the index on, so
    calls nest no deeper than the chain is long. *)
Definition handle (handlers : list HandlerFunc) (req : Request) : Context :=
  Next handlers (S (length handlers))
    {| request := req; index := -1; status := 200; header := ∅; body := None |}.

End gin.

(** [strings.Contains]. *)
Fixpoint strings_Contains (s substr : string) : bool :=
  String.prefix substr s ||
  match s with
  | EmptyString => false
  | String _ s' => strings_Contains s' substr
  end.

(** ** middleware *)

Definition SimpleAuth : gin.HandlerFunc := λ next c,
  let apiKey := gin.GetHeader c "X-API-Key" in
  if decide (apiKey = "") then next c
  else if decide (apiKey ≠ "demo-api-key-12345") then
    gin.Abort (gin.JSON 401 [("error", "Invalid API key")] c)
  else next c.

Definition CORS : gin.HandlerFunc := λ next c,
  let origin := gin.Header_Get (gin.request c) "Origin" in
  let c :=
    if strings_Contains origin "localhost" || strings_Contains origin "127.0.0.1"
    then gin.Header "Access-Control-Allow-Origin" origin c
    else c in
  let c := gin.Header "Access-Control-Allow-Methods" "GET, POST, PUT, DELETE, OPTIONS" c in
  let c :=
    gin.Header "Access-Control-Allow-Headers"
      "Origin, Content-Type, Content-Length, Accept-Encoding, X-CSRF-Token, Authorization, X-API-Key"
      c in
  let c := gin.Header "Access-Control-Allow-Credentials" "true" c in
  if decide (gin.Method (gin.request c) = "OPTIONS") then gin.AbortWithStatus 204 c
  else next c.

(** ** main.go: the chain a route is served by

    [router.Use(middleware.CORS())], then
    [router.Use(middleware.SimpleAuth())], then the handler of the route. *)
Definition route (handler : gin.HandlerFunc) : list gin.HandlerFunc :=
  [CORS; SimpleAuth; handler].

(** The headers [CORS] sets on every response. *)
Definition cors_headers (origin : string) : gmap string string :=
  let allow : gmap string string :=
    if strings_Contains origin "localhost" || strings_Contains origin "127.0.0.1"
    then {[ "Access-Control-Allow-Origin" := origin ]}
    else ∅ in
  <["Access-Control-Allow-Credentials" := "true"]>
    (<["Access-Control-Allow-Headers" :=
         "Origin, Content-Type, Content-Length, Accept-Encoding, X-CSRF-Token, Authorization, X-API-Key"]>
       (<["Access-Control-Allow-Methods" := "GET, POST, PUT, DELETE, OPTIONS"]> allow)).


(** ** Further concrete inputs *)

(** The worker of "job-1" has run to its end. *)
Definition demo_done : state :=
  default (demo_state demo_lines) (final_state (demo_run demo_lines)).

(** The system after the submission, before its worker has taken a step. *)
Definition submitted_config : config :=
  played demo_processor ([Submit "uploads/in.csv"] ++ replicate 6 (Run 0%nat))
    {[ "uploads/in.csv" := Upload demo_lines ]} ∅ ["job-1"] [10; 25].

Definition bench_processor : CSVProcessor :=
  NewCSVProcessor "bench_uploads" "bench_results".

Definition bench_state : state :=
  NewCSVProcessor_state ∅ ∅ ["job-1"] [10; 25].

(** A request with a method, an origin and an API key, and no other header. *)
Definition demo_request (method origin apiKey : string) : gin.Request :=
  {| gin.Method := method;
     gin.Header_Get := λ key,
       if decide (key = "Origin") then origin
       else if decide (key = "X-API-Key") then apiKey
       else "" |}.

(** main.go: the handler of the route /health. *)
Definition health : gin.Context → gin.Context :=
  gin.JSON 200 [("status", "healthy"); ("service", "csv-processor")].

(** * Part II: lemmas and theorems *)

Arguments exec : simpl never.
Arguments assign : simpl never.
Arguments bind : simpl never.
Arguments prog_bind : simpl never.
Arguments updateJobError : simpl never.
Arguments updateJobProgress : simpl never.
Arguments writeResultCSV : simpl never.
Arguments processCSVFile : simpl never.
Arguments ProcessCSVAsync : simpl never.
Arguments GetJobStatus : simpl never.

(** ** Integers and conversions *)

Lemma wrap_in_range z : GoInt.in_range (GoInt.wrap z).
Proof.
  unfold GoInt.in_range, GoInt.wrap, GoInt.min_int, GoInt.max_int.
  pose proof (Z.mod_pos_bound (z + 2 ^ 63) (2 ^ 64)). lia.
Qed.

Lemma wrap_id z : GoInt.in_range z → GoInt.wrap z = z.
Proof.
  unfold GoInt.in_range, GoInt.wrap, GoInt.min_int, GoInt.max_int. intros Hz.
  rewrite Z.mod_small; lia.
Qed.

Lemma wrap_add_l a b : GoInt.wrap (GoInt.wrap a + b) = GoInt.wrap (a + b).
Proof.
  unfold GoInt.wrap.
  replace (((a + 2 ^ 63) mod 2 ^ 64 - 2 ^ 63) + b + 2 ^ 63)
    with ((a + 2 ^ 63) mod 2 ^ 64 + b) by lia.
  rewrite Zplus_mod_idemp_l. do 2 f_equal. lia.
Qed.

Example Atoi_150 : strconv.Atoi "150" = Some 150.
Proof. reflexivity. Qed.

Example Atoi_neg : strconv.Atoi "-7" = Some (-7).
Proof. reflexivity. Qed.

Example Atoi_plus : strconv.Atoi "+7" = Some 7.
Proof. reflexivity. Qed.

Example Atoi_empty : strconv.Atoi "" = None.
Proof. reflexivity. Qed.

Example Atoi_sign_only : strconv.Atoi "-" = None.
Proof. reflexivity. Qed.

Example Atoi_text : strconv.Atoi "12a" = None.
Proof. reflexivity. Qed.

Example Atoi_space : strconv.Atoi " 5" = None.
Proof. reflexivity. Qed.

Example Atoi_max : strconv.Atoi "9223372036854775807" = Some GoInt.max_int.
Proof. vm_compute. reflexivity. Qed.

Example Atoi_range : strconv.Atoi "9223372036854775808" = None.
Proof. vm_compute. reflexivity. Qed.

Example Atoi_min : strconv.Atoi "-9223372036854775808" = Some GoInt.min_int.
Proof. vm_compute. reflexivity. Qed.

Example Itoa_350 : strconv.Itoa 350 = "350".
Proof. vm_compute. reflexivity. Qed.

Example Itoa_neg : strconv.Itoa (-12) = "-12".
Proof. vm_compute. reflexivity. Qed.

Example Itoa_0 : strconv.Itoa 0 = "0".
Proof. vm_compute. reflexivity. Qed.

(** ** Runs of a program on its own *)

Lemma exec_bind {A B} (p : prog A) (f : A → prog B) σ :
  exec (p ≫= f) σ = then_run (exec p σ) f.
Proof.
  revert σ. induction p as [a| |a k IH]; intros σ; try reflexivity.
  change (exec (Vis a (λ r, k r ≫= f)) σ = then_run (exec (Vis a k) σ) f).
  unfold exec; fold @exec. destruct (perform a σ); simpl; auto.
Qed.

Lemma exec_Vis {A} a (k : resp a → prog A) σ :
  exec (Vis a k) σ = then_run (perform a σ) k.
Proof. reflexivity. Qed.

Lemma exec_Ret {A} (a : A) σ : exec (Ret a) σ = Ok a σ.
Proof. reflexivity. Qed.

Lemma at_job_id σ l r :
  heap σ !! l = Some r → at_job σ l r (fs σ) (clock σ) (jobsMutex σ) = σ.
Proof.
  intros Hl. destruct σ; unfold at_job; simpl in *. f_equal. by apply insert_id.
Qed.

Lemma at_job_set_heap σ l r' :
  jobsMutex σ = unlocked →
  at_job σ l r' (fs σ) (clock σ) unlocked = set_heap <[l := r']> σ.
Proof. intros Hm. destruct σ; cbn in *. by subst. Qed.

(** Equality of two states built with the setters. *)
Ltac state_eq :=
  unfold at_job, set_mutex, set_heap, set_fs, set_clock, set_jobs, unlocked;
  simpl; f_equal; rewrite ?insert_insert_eq; try done.

Lemma set_mutex_at_job m σ l r files times m' :
  set_mutex m (at_job σ l r files times m') = at_job σ l r files times m.
Proof. reflexivity. Qed.

Lemma set_clock_at_job c σ l r files times m :
  set_clock c (at_job σ l r files times m) = at_job σ l r files c m.
Proof. reflexivity. Qed.

Lemma set_fs_at_job g σ l r files times m :
  set_fs g (at_job σ l r files times m) = at_job σ l r (g files) times m.
Proof. reflexivity. Qed.

Lemma set_heap_at_job r' σ l r files times m :
  set_heap <[l := r']> (at_job σ l r files times m) = at_job σ l r' files times m.
Proof. state_eq. Qed.

(** Running a program up to the next point where a hypothesis is needed. *)
Ltac run :=
  repeat first
    [ progress unfold act | rewrite exec_Vis | rewrite exec_bind | rewrite exec_Ret
    | rewrite lookup_insert_eq
    | rewrite set_mutex_at_job | rewrite set_clock_at_job
    | rewrite set_fs_at_job | rewrite set_heap_at_job
    | progress cbn ].

Lemma exec_updateJobError σ jobID errorMsg l r files times :
  jobs σ !! jobID = Some l →
  exec (updateJobError jobID errorMsg) (at_job σ l r files times unlocked)
  = Ok tt (at_job σ l (failed errorMsg r) files times unlocked).
Proof.
  intros Hj. unfold updateJobError.
  run. rewrite Hj. by run.
Qed.

Lemma exec_updateJobProgress σ jobID n l r files times :
  jobs σ !! jobID = Some l →
  exec (updateJobProgress jobID n) (at_job σ l r files times unlocked)
  = Ok tt (at_job σ l (assign (SetTotalRecords n) r) files times unlocked).
Proof.
  intros Hj. unfold updateJobProgress.
  run. rewrite Hj. by run.
Qed.

Lemma exec_Deref l σ (r : ProcessingResult) :
  heap σ !! l = Some r → exec (act (Deref l)) σ = Ok r σ.
Proof. intros Hl. unfold act. rewrite exec_Vis. cbn. by rewrite Hl. Qed.

Lemma exec_ProcessCSVAsync filePath σ u rest :
  jobsMutex σ = unlocked →
  uuids σ = u :: rest →
  exec (ProcessCSVAsync filePath) σ
  = Ok u {| jobs := <[u := fresh (dom (heap σ))]> (jobs σ);
            jobsMutex := unlocked;
            heap := <[fresh (dom (heap σ)) := new_job u]> (heap σ);
            fs := fs σ; denied := denied σ; uuids := rest; clock := clock σ;
            issued := u :: issued σ |}.
Proof. intros Hm Hu. destruct σ; cbn in *. by subst. Qed.

Lemma exec_GetJobStatus jobID σ :
  writer (jobsMutex σ) = false →
  exec (GetJobStatus jobID) σ
  = Ok (jobs σ !! jobID, bool_decide (is_Some (jobs σ !! jobID))) σ.
Proof.
  intros Hw. destruct σ as [js [w n] hp files den us ck iss]; cbn in *. subst.
  unfold GetJobStatus. by run.
Qed.

Lemma assign_TotalRecords_same r : assign (SetTotalRecords (TotalRecords r)) r = r.
Proof. by destruct r. Qed.

Lemma assign_TotalRecords_twice a b r :
  assign (SetTotalRecords a) (assign (SetTotalRecords b) r)
  = assign (SetTotalRecords a) r.
Proof. by destruct r. Qed.

Lemma failed_fields msg r :
  failed msg r
  = {| JobID := JobID r; Status := "error"; DownloadURL := DownloadURL r;
       ProcessingTime := ProcessingTime r; DepartmentCount := DepartmentCount r;
       TotalRecords := TotalRecords r; Error := msg |}.
Proof. done. Qed.

Lemma completed_fields url e d n r :
  completed url e d n r
  = {| JobID := JobID r; Status := "completed"; DownloadURL := url;
       ProcessingTime := e; DepartmentCount := d; TotalRecords := n;
       Error := Error r |}.
Proof. done. Qed.

Section sequential.
Context `{Runtime}.
Variable p : CSVProcessor.

Lemma exec_read_loop jobID l σ files times reader :
  jobs σ !! jobID = Some l →
  ∀ t count r,
    exec (read_loop jobID reader t count) (at_job σ l r files times unlocked)
    = let s := scan reader t count (TotalRecords r) in
      let r' := assign (SetTotalRecords (checkpoint s)) r in
      match failure s with
      | None => Ok (Some (totals s, accepted s)) (at_job σ l r' files times unlocked)
      | Some msg => Ok None (at_job σ l (failed msg r') files times unlocked)
      end.
Proof.
  intros Hj. induction reader as [|ln reader IH]; intros t count r.
  - simpl. by rewrite assign_TotalRecords_same.
  - destruct ln as [n fields|msg]; cbn.
    + destruct fields as [|department [|date [|field [|extra fields]]]];
        cbn; try (rewrite exec_bind, exec_updateJobError by done; cbn;
                    by rewrite assign_TotalRecords_same).
      run. destruct (strconv.Atoi field) as [sales|]; [|apply IH].
      run. fold (add_sale department sales t).
      case_bool_decide.
      * rewrite exec_updateJobProgress by done. simpl. rewrite IH. simpl.
        by rewrite !assign_TotalRecords_twice.
      * run. apply IH.
    + rewrite exec_bind, exec_updateJobError by done; simpl.
      by rewrite assign_TotalRecords_same.
Qed.

(** The loop over [pre ++ ext] passes through the state the loop over
    [pre] ends in, and goes on from there. *)
Lemma exec_read_loop_app jobID pre ext :
  ∀ t count σ,
    exec (read_loop jobID (pre ++ ext) t count) σ
    = match exec (read_loop jobID pre t count) σ with
      | Ok (Some (t', count')) σ' => exec (read_loop jobID ext t' count') σ'
      | Ok None σ' => Ok None σ'
      | Blocked => Blocked
      | Fault => Fault
      end.
Proof.
  induction pre as [|ln pre IH]; intros t count σ; [done|].
  rewrite <- app_comm_cons. cbn [read_loop].
  destruct (csv.check 3 ln) as [err|record].
  - rewrite !exec_bind. by destruct (exec (updateJobError _ _) σ).
  - rewrite !exec_bind. destruct (exec (index record 2) σ) as [field σ1| |]; [|done..].
    cbn [then_run]. destruct (strconv.Atoi field) as [sales|]; [|apply IH].
    rewrite !exec_bind.
    destruct (exec (index record 0) σ1) as [department σ2| |]; [|done..].
    cbn [then_run]. rewrite !exec_bind.
    destruct (exec _ σ2) as [[] σ3| |]; [|done..].
    cbn [then_run]. apply IH.
Qed.

Lemma exec_write_records out entries σ l r files times m :
  ∀ records,
    exec (write_records out entries)
      (at_job σ l r (<[out := Artifact records]> files) times m)
    = Ok None
        (at_job σ l r (<[out := Artifact (records ++ map encode entries)]> files)
           times m).
Proof.
  induction entries as [|[department total] entries IH]; intros records.
  - cbn. by rewrite app_nil_r.
  - cbn. run. rewrite alter_insert_eq. cbn.
    rewrite IH. by rewrite <- app_assoc.
Qed.

Lemma exec_writeResultCSV_ok out t σ l r files times m :
  denied σ !! out = None →
  exec (writeResultCSV out t) (at_job σ l r files times m)
  = Ok None (at_job σ l r (<[out := artifact t]> files) times m).
Proof.
  intros Hd. unfold writeResultCSV. run. rewrite Hd. run.
  rewrite alter_insert_eq. cbn. apply exec_write_records.
Qed.

Lemma exec_writeResultCSV_denied out t σ l r files times m why :
  denied σ !! out = Some why →
  exec (writeResultCSV out t) (at_job σ l r files times m)
  = Ok (Some ("open " +:+ out +:+ ": " +:+ why)) (at_job σ l r files times m).
Proof. intros Hd. unfold writeResultCSV. run. rewrite Hd. by run. Qed.

Lemma exec_processCSVFile jobID filePath σ l r :
  jobsMutex σ = unlocked →
  jobs σ !! jobID = Some l →
  heap σ !! l = Some r →
  exec (processCSVFile p jobID filePath) σ
  = Ok tt (processed p jobID filePath σ l r).
Proof.
  intros Hm Hj Hl. unfold processCSVFile, processed.
  rewrite <- (at_job_id σ l r Hl) at 1. rewrite Hm.
  run. rewrite Hj. run.
  destruct (fs σ !! filePath) as [f|] eqn:Hf; run.
  - destruct (tokens f) as [|header reader]; cbn.
    { rewrite exec_updateJobError by done.
      by rewrite assign_TotalRecords_same. }
    destruct (csv.check 3 header) as [err|record] eqn:Hc.
    + rewrite exec_updateJobError by done.
      by rewrite assign_TotalRecords_same.
    + rewrite exec_bind, exec_read_loop by done. cbn.
      destruct (failure _); cbn; [done|].
      rewrite exec_bind. fold (outputPath p jobID).
      destruct (denied σ !! outputPath p jobID) as [why|] eqn:Hd.
      * rewrite (exec_writeResultCSV_denied _ _ _ _ _ _ _ _ why) by done. cbn.
        by rewrite exec_updateJobError by done.
      * rewrite exec_writeResultCSV_ok by done. cbn.
        by run.
  - rewrite exec_updateJobError by done.
    by rewrite assign_TotalRecords_same.
Qed.

End sequential.

(** ** Facts about the fold *)

Lemma well_formed_three_fields l : well_formed l → three_fields l.
Proof.
  intros [e He]. destruct l as [n [|a [|b [|c [|? ?]]]]|]; try done.
  by exists n, a, b, c.
Qed.

Lemma unparsable_three_fields l : unparsable l → three_fields l.
Proof. intros (n & a & b & c & -> & _). by exists n, a, b, c. Qed.

Lemma unparsable_parsed l : unparsable l → parsed l = None.
Proof. intros (n & a & b & c & -> & Hc). cbn. by rewrite Hc. Qed.

Lemma scan_step_unparsable l reader t c cp :
  unparsable l → scan (l :: reader) t c cp = scan reader t c cp.
Proof. intros (n & a & b & d & -> & Hc). cbn. by rewrite Hc. Qed.

Lemma scan_step_misshapen l reader t c cp :
  misshapen l →
  ∃ msg, scan (l :: reader) t c cp
         = {| totals := t; accepted := c; checkpoint := cp; failure := Some msg |}.
Proof.
  intros (n & fields & -> & Hlen).
  destruct fields as [|a [|b [|d [|? ?]]]]; cbn; eauto. done.
Qed.

(** A row whose count does not parse leaves no trace in the fold. *)
Lemma scan_drop pre bad post :
  unparsable bad →
  ∀ t c cp, scan (pre ++ bad :: post) t c cp = scan (pre ++ post) t c cp.
Proof.
  intros Hbad. induction pre as [|l pre IH]; intros t c cp.
  - by apply scan_step_unparsable.
  - destruct l as [n [|a [|b [|d [|? ?]]]]|]; cbn; try done.
    destruct (strconv.Atoi d); apply IH.
Qed.

(** A row of the wrong shape anywhere makes the fold fail. *)
Lemma scan_fails pre bad post :
  misshapen bad →
  ∀ t c cp, is_Some (failure (scan (pre ++ bad :: post) t c cp)).
Proof.
  intros Hbad. induction pre as [|l pre IH]; intros t c cp.
  - rewrite app_nil_l.
    destruct (scan_step_misshapen bad post t c cp Hbad) as [msg ->]. by eexists.
  - destruct l as [n [|a [|b [|d [|? ?]]]]|]; cbn; try by eexists.
    destruct (strconv.Atoi d); apply IH.
Qed.

Lemma scan_failure_nonempty reader :
  ∀ t c cp msg, failure (scan reader t c cp) = Some msg → msg ≠ "".
Proof.
  induction reader as [|l reader IH]; intros t c cp msg; [done|].
  destruct l as [n [|a [|b [|d [|? ?]]]]|]; cbn; try by intros [= <-].
  destruct (strconv.Atoi d); apply IH.
Qed.

Lemma add_one c : 0 ≤ c < GoInt.max_int → GoInt.add c 1 = c + 1.
Proof.
  intros Hc. apply wrap_id.
  unfold GoInt.in_range, GoInt.min_int, GoInt.max_int in *. lia.
Qed.

Lemma rem_batch c : 0 ≤ c → GoInt.rem c batchSize = c mod 1000.
Proof. intros Hc. unfold GoInt.rem, batchSize. apply Z.rem_mod_nonneg; lia. Qed.

Lemma checkpoint_next c :
  0 ≤ c →
  (if bool_decide ((c + 1) mod 1000 = 0) then c + 1 else 1000 * (c / 1000))
  = 1000 * ((c + 1) / 1000).
Proof.
  intros Hc.
  pose proof (Z.div_mod c 1000). pose proof (Z.mod_pos_bound c 1000).
  pose proof (Z.div_mod (c + 1) 1000). pose proof (Z.mod_pos_bound (c + 1) 1000).
  case_bool_decide; lia.
Qed.

(** The last checkpoint is the largest multiple of the batch size that the
    count of accepted records has reached. *)
Lemma scan_count reader :
  ∀ t c,
    0 ≤ c → c + Z.of_nat (length reader) ≤ GoInt.max_int →
    let s := scan reader t c (1000 * (c / 1000)) in
    c ≤ accepted s ≤ c + Z.of_nat (length reader) ∧
    checkpoint s = 1000 * (accepted s / 1000).
Proof.
  induction reader as [|l reader IH]; intros t c Hc Hmax; cbn.
  { split; [lia|done]. }
  change (length (l :: reader)) with (S (length reader)) in Hmax.
  rewrite Nat2Z.inj_succ in Hmax.
  destruct l as [n [|a [|b [|d [|? ?]]]]|]; cbn; try (split; [lia|done]).
  destruct (strconv.Atoi d) as [v|].
  2:{ destruct (IH t c) as [? ?]; lia. }
  rewrite add_one by lia. rewrite rem_batch by lia.
  rewrite checkpoint_next by lia.
  destruct (IH (add_sale a v t) (c + 1)) as [? ?]; lia.
Qed.

Lemma scan_shaped reader :
  Forall three_fields reader →
  ∀ t c cp,
    failure (scan reader t c cp) = None ∧
    totals (scan reader t c cp) = add_sales (sales_of reader) t.
Proof.
  induction 1 as [|l reader (n & a & b & d & ->) _ IH]; intros t c cp; [done|].
  unfold sales_of. cbn. destruct (strconv.Atoi d) as [v|]; cbn; apply IH.
Qed.

Lemma scan_accepted reader :
  Forall three_fields reader →
  ∀ t c cp,
    0 ≤ c → c + Z.of_nat (length reader) ≤ GoInt.max_int →
    accepted (scan reader t c cp) = c + Z.of_nat (length (sales_of reader)).
Proof.
  induction 1 as [|l reader (n & a & b & d & ->) _ IH]; intros t c cp Hc Hmax.
  { cbn. lia. }
  change (length (?x :: reader)) with (S (length reader)) in Hmax.
  rewrite Nat2Z.inj_succ in Hmax.
  unfold sales_of. cbn. destruct (strconv.Atoi d) as [v|]; cbn.
  - rewrite add_one by lia. rewrite IH by lia. unfold sales_of. lia.
  - by apply IH; lia.
Qed.

Lemma sales_of_well_formed rows :
  Forall well_formed rows → length (sales_of rows) = length rows.
Proof.
  unfold sales_of. induction 1 as [|l rows [e He] _ IH]; cbn; [done|].
  rewrite He. cbn. by rewrite IH.
Qed.

(** Up to a row of the wrong shape: the fold fails there at the latest. *)
Lemma scan_fails_count pre bad post :
  misshapen bad →
  ∀ t c,
    0 ≤ c → c + Z.of_nat (length pre) ≤ GoInt.max_int →
    let s := scan (pre ++ bad :: post) t c (1000 * (c / 1000)) in
    c ≤ accepted s ≤ c + Z.of_nat (length pre) ∧
    checkpoint s = 1000 * (accepted s / 1000).
Proof.
  intros Hbad. induction pre as [|l pre IH]; intros t c Hc Hmax.
  - rewrite app_nil_l.
    destruct (scan_step_misshapen bad post t c (1000 * (c / 1000)) Hbad) as [msg ->].
    cbn. lia.
  - change (length (l :: pre)) with (S (length pre)) in Hmax.
    rewrite Nat2Z.inj_succ in Hmax. rewrite <- app_comm_cons.
    destruct l as [n [|a [|b [|d [|? ?]]]]|]; cbn; try lia.
    destruct (strconv.Atoi d) as [v|].
    2:{ destruct (IH t c) as [? ?]; lia. }
    rewrite add_one by lia. rewrite rem_batch by lia.
    rewrite checkpoint_next by lia.
    destruct (IH (add_sale a v t) (c + 1)) as [? ?]; lia.
Qed.

(** ** The totals *)

Lemma add_sales_lookup sales :
  ∀ t k,
    add_sales sales t !! k
    = if decide (k ∈ sales.*1)
      then Some (GoInt.wrap (default 0 (t !! k) + total_in k sales))
      else t !! k.
Proof.
  induction sales as [|[d v] sales IH]; intros t k; cbn.
  { case_decide as Hin; [|done]. by apply elem_of_nil in Hin. }
  unfold add_sales in IH. rewrite IH. unfold add_sale, GoInt.add. cbn.
  assert (∀ l, k ∉ l.*1 → total_in k l = 0) as Hzero.
  { clear. induction l as [|[d' v'] l IHl]; [done|]. cbn. intros Hk.
    rewrite decide_False by (intros ->; apply Hk; by left).
    apply IHl. intros ?. apply Hk. by right. }
  destruct (decide (d = k)) as [->|Hne].
  - rewrite lookup_insert_eq. cbn.
    destruct (decide (k ∈ k :: sales.*1)) as [_|Hn]; [|destruct Hn; by left].
    destruct (decide (k ∈ sales.*1)) as [Hin|Hin].
    + fold (total_in k sales). f_equal. rewrite wrap_add_l. f_equal. lia.
    + fold (total_in k sales). f_equal. f_equal. rewrite (Hzero sales Hin). lia.
  - rewrite lookup_insert_ne by done.
    destruct (decide (k ∈ sales.*1)) as [Hin|Hin].
    + destruct (decide (k ∈ d :: sales.*1)) as [_|Hn]; [done|].
      destruct Hn. by right.
    + destruct (decide (k ∈ d :: sales.*1)) as [Hn|_]; [|done].
      apply elem_of_cons in Hn as [->|?]; done.
Qed.

Lemma totals_lookup rows k :
  add_sales (sales_of rows) ∅ !! k
  = if decide (k ∈ categories rows)
    then Some (GoInt.wrap (exact_total k rows)) else None.
Proof.
  rewrite add_sales_lookup, lookup_empty. cbn.
  unfold categories, exact_total, total_in.
  destruct (decide (k ∈ (sales_of rows).*1)).
  - by rewrite decide_True by (by apply elem_of_remove_dups).
  - by rewrite decide_False by (by rewrite elem_of_remove_dups).
Qed.

(** The entries of the final totals: one per category, with its sum. *)
Lemma totals_entries rows :
  map_to_list (add_sales (sales_of rows) ∅)
  ≡ₚ (λ c, (c, GoInt.wrap (exact_total c rows))) <$> categories rows.
Proof.
  apply NoDup_Permutation.
  - apply NoDup_map_to_list.
  - apply NoDup_fmap_2_strong; [|apply NoDup_remove_dups].
    by intros ?? _ _ [= ->].
  - intros [k v]. rewrite elem_of_map_to_list, totals_lookup, list_elem_of_fmap.
    case_decide as Hin; split.
    + intros [= <-]. by exists k.
    + by intros (c & [= -> ->] & _).
    + done.
    + by intros (c & [= -> ->] & ?).
Qed.

Lemma totals_size rows :
  size (add_sales (sales_of rows) ∅) = length (categories rows).
Proof.
  rewrite <- length_map_to_list, (totals_entries rows). by rewrite length_fmap.
Qed.

(** ** Properties of one job, run without interruption *)

Section one_job.
Context `{Runtime}.
Variable p : CSVProcessor.

Lemma registered_set_fs g σ jobID l r :
  registered σ jobID l r → registered (set_fs g σ) jobID l r.
Proof. done. Qed.

(** A file of three-field rows under a three-field header is processed to
    completion. *)
Lemma processed_shaped σ jobID filePath l r header rows :
  fs σ !! filePath = Some (Upload (header :: rows)) →
  three_fields header →
  Forall three_fields rows →
  denied σ !! outputPath p jobID = None →
  processed p jobID filePath σ l r
  = let s := scan rows ∅ 0 (TotalRecords r) in
    at_job σ l
      (completed ("/download/" +:+ filepath_Base (outputPath p jobID))
         (default 0 (head (tail (clock σ))) - default 0 (head (clock σ)))
         (Z.of_nat (size (totals s))) (accepted s) r)
      (delete filePath (<[outputPath p jobID := artifact (totals s)]> (fs σ)))
      (tail (tail (clock σ))) unlocked.
Proof.
  intros Hfs (n & a & b & c & ->) Hrows Hden.
  unfold processed. rewrite Hfs. cbn.
  destruct (scan_shaped rows Hrows ∅ 0 (TotalRecords r)) as [-> _].
  by rewrite Hden.
Qed.

Lemma completes_shaped σ jobID filePath l r header rows :
  registered σ jobID l r →
  fs σ !! filePath = Some (Upload (header :: rows)) →
  three_fields header →
  Forall three_fields rows →
  Z.of_nat (length rows) ≤ GoInt.max_int →
  denied σ !! outputPath p jobID = None →
  outputPath p jobID ≠ filePath →
  ∃ σ' r' data,
    exec (processCSVFile p jobID filePath) σ = Ok tt σ' ∧
    jobs σ' !! jobID = Some l ∧ heap σ' !! l = Some r' ∧
    Status r' = "completed" ∧
    TotalRecords r' = Z.of_nat (length (sales_of rows)) ∧
    DepartmentCount r' = Z.of_nat (length (categories rows)) ∧
    fs σ' !! outputPath p jobID = Some (Artifact (result_header :: data)) ∧
    data ≡ₚ (λ c, [c; strconv.Itoa (GoInt.wrap (exact_total c rows))])
              <$> categories rows.
Proof.
  intros (Hm & Hj & Hl) Hfs Hh Hrows Hlen Hden Hne.
  rewrite (exec_processCSVFile p jobID filePath σ l r Hm Hj Hl).
  rewrite (processed_shaped σ jobID filePath l r header rows) by done.
  cbn zeta.
  destruct (scan_shaped rows Hrows ∅ 0 (TotalRecords r)) as [_ Ht].
  pose proof (scan_accepted rows Hrows ∅ 0 (TotalRecords r)) as Ha.
  rewrite Ht, Ha by lia.
  eexists _, _, (encode <$> map_range (add_sales (sales_of rows) ∅)).
  split; [reflexivity|]. split; [done|].
  split; [apply lookup_insert_eq|]. rewrite completed_fields. split; [done|].
  split; [cbn; lia|]. split; [cbn; by rewrite totals_size|].
  split.
  - cbn. rewrite lookup_delete_ne by done. by rewrite lookup_insert_eq.
  - rewrite map_range_perm, totals_entries, <- list_fmap_compose. done.
Qed.

(** Every failure leaves the files as they were. *)
Lemma processed_dichotomy σ jobID filePath l r :
  ∃ r',
    heap (processed p jobID filePath σ l r) !! l = Some r' ∧
    jobs (processed p jobID filePath σ l r) = jobs σ ∧
    ((Status r' = "completed" ∧
      fs (processed p jobID filePath σ l r) !! filePath = None) ∨
     (Status r' = "error" ∧ Error r' ≠ "" ∧
      DownloadURL r' = DownloadURL r ∧ DepartmentCount r' = DepartmentCount r ∧
      fs (processed p jobID filePath σ l r) = fs σ)).
Proof.
  unfold processed.
  destruct (fs σ !! filePath) as [f|]; [destruct (tokens f) as [|header reader]|];
    try (eexists; split; [apply lookup_insert_eq|]; split; [done|]; by right).
  destruct (csv.check 3 header);
    try (eexists; split; [apply lookup_insert_eq|]; split; [done|]; by right).
  destruct (failure _) as [msg|] eqn:Hf.
  { eexists; split; [apply lookup_insert_eq|]. split; [done|]. right.
    repeat split; try done. by apply scan_failure_nonempty in Hf. }
  destruct (denied σ !! _);
    eexists; (split; [apply lookup_insert_eq|]); (split; [done|]);
    [by right|left]. split; [done|]. apply lookup_delete_eq.
Qed.

Lemma processed_same σ jobID filePath l r header1 header2 rows1 rows2 :
  same_check header1 header2 →
  scan rows1 ∅ 0 (TotalRecords r) = scan rows2 ∅ 0 (TotalRecords r) →
  same_outcome filePath
    (processed p jobID filePath
       (set_fs <[filePath := Upload (header1 :: rows1)]> σ) l r)
    (processed p jobID filePath
       (set_fs <[filePath := Upload (header2 :: rows2)]> σ) l r).
Proof.
  intros Hh Hs. unfold processed, same_check in *. cbn.
  rewrite !lookup_insert_eq. cbn. rewrite <- Hs.
  assert (∀ g1 g2 : file, ∀ path, path ≠ filePath →
            <[filePath := g1]> (fs σ) !! path = <[filePath := g2]> (fs σ) !! path)
    as Hother by (intros; by rewrite !lookup_insert_ne).
  assert (∀ msg cp,
    same_outcome filePath
      (at_job (set_fs <[filePath := Upload (header1 :: rows1)]> σ) l
         (failed msg (assign (SetTotalRecords cp) r))
         (<[filePath := Upload (header1 :: rows1)]> (fs σ)) (tail (clock σ)) unlocked)
      (at_job (set_fs <[filePath := Upload (header2 :: rows2)]> σ) l
         (failed msg (assign (SetTotalRecords cp) r))
         (<[filePath := Upload (header2 :: rows2)]> (fs σ)) (tail (clock σ)) unlocked))
    as Hfail.
  { intros msg cp. repeat split; cbn; try done; auto.
    all: by rewrite lookup_insert_eq. }
  destruct (csv.check 3 header1) as [e1|rec1], (csv.check 3 header2) as [e2|rec2];
    try done; try (subst; apply Hfail);
    (destruct (failure _); [apply Hfail|]);
    (destruct (denied σ !! _); [apply Hfail|]);
    (repeat split; cbn; try done;
     [ intros path Hp; rewrite !lookup_delete_ne by done;
       destruct (decide (path = outputPath p jobID)) as [->|?];
       [by rewrite !lookup_insert_eq|rewrite !lookup_insert_ne by done; auto]
     | intros _; apply lookup_delete_eq
     | intros _; apply lookup_delete_eq ]).
Qed.

End one_job.

(** ** The specification's claims about one job *)

(** From the record found at the job's location to a fact about it. *)
Ltac read_status H :=
  cbn in H; rewrite lookup_insert_eq in H; injection H as <-.

Section claims.
Context `{Runtime}.
Variable p : CSVProcessor.




(** C5 (as amended): the header row is consumed and discarded and its
    contents are not validated: two headers of three fields each lead to
    the same outcome whatever they say.  Its field count is checked like any
    other row's: under a header whose field count is not three the job fails
    with a "Failed to read header" message and no file is touched. *)
Theorem C5_header_contents_ignored σ jobID filePath l r header1 header2 rows :
  registered σ jobID l r →
  three_fields header1 →
  three_fields header2 →
  ∃ σ1 σ2,
    exec (processCSVFile p jobID filePath)
      (set_fs <[filePath := Upload (header1 :: rows)]> σ) = Ok tt σ1 ∧
    exec (processCSVFile p jobID filePath)
      (set_fs <[filePath := Upload (header2 :: rows)]> σ) = Ok tt σ2 ∧
    same_outcome filePath σ1 σ2 ∧
    (∀ n fields, length fields ≠ 3%nat →
       ∃ σ3 r3,
         exec (processCSVFile p jobID filePath)
           (set_fs <[filePath := Upload (csv.Fields n fields :: rows)]> σ) = Ok tt σ3 ∧
         heap σ3 !! l = Some r3 ∧ Status r3 = "error" ∧
         Error r3 = "Failed to read header: " +:+ csv.ErrFieldCount n ∧
         fs σ3 = <[filePath := Upload (csv.Fields n fields :: rows)]> (fs σ)).
Proof.
  intros Hreg (n1 & a1 & b1 & c1 & ->) (n2 & a2 & b2 & c2 & ->).
  assert (∀ g, exec (processCSVFile p jobID filePath) (set_fs g σ)
               = Ok tt (processed p jobID filePath (set_fs g σ) l r)) as Hex.
  { intros g. destruct (registered_set_fs g σ jobID l r Hreg) as (? & ? & ?).
    by apply exec_processCSVFile. }
  rewrite !Hex. eexists _, _. split; [reflexivity|]. split; [reflexivity|].
  split; [by apply processed_same|].
  intros n fields Hlen. rewrite Hex. eexists _, _. split; [reflexivity|].
  unfold processed. cbn. rewrite lookup_insert_eq. cbn.
  destruct (Nat.eqb_spec (length fields) 3) as [|_]; [done|].
  split; [apply lookup_insert_eq|]. done.
Qed.

(** C7: a progress update writes the given count into the job's record and
    changes nothing else, in the record or elsewhere.  Along the streaming
    loop these updates are all that happens to the shared state: after any
    prefix of the rows the state is the initial one with the job's
    [TotalRecords] set to the largest multiple of 1000 that the number of
    accepted records has reached (the loop over more rows goes on from that
    state), so the value only grows as more rows are read, and it never
    exceeds the number of accepted records (the value written at
    completion). *)
Theorem C7_progress_checkpoints σ jobID l r pre ext :
  registered σ jobID l r →
  TotalRecords r = 0 →
  Forall three_fields (pre ++ ext) →
  Z.of_nat (length (pre ++ ext)) ≤ GoInt.max_int →
  (∀ n, exec (updateJobProgress jobID n) σ
        = Ok tt (set_heap <[l := assign (SetTotalRecords n) r]> σ) ∧
        assign (SetTotalRecords n) r
        = {| JobID := JobID r; Status := Status r; DownloadURL := DownloadURL r;
             ProcessingTime := ProcessingTime r;
             DepartmentCount := DepartmentCount r;
             TotalRecords := n; Error := Error r |}) ∧
  ∃ t1 t2,
    let n1 := Z.of_nat (length (sales_of pre)) in
    let n2 := Z.of_nat (length (sales_of (pre ++ ext))) in
    exec (read_loop jobID pre ∅ 0) σ
    = Ok (Some (t1, n1))
        (set_heap <[l := assign (SetTotalRecords (1000 * (n1 / 1000))) r]> σ) ∧
    exec (read_loop jobID (pre ++ ext) ∅ 0) σ
    = exec (read_loop jobID ext t1 n1)
        (set_heap <[l := assign (SetTotalRecords (1000 * (n1 / 1000))) r]> σ) ∧
    exec (read_loop jobID (pre ++ ext) ∅ 0) σ
    = Ok (Some (t2, n2))
        (set_heap <[l := assign (SetTotalRecords (1000 * (n2 / 1000))) r]> σ) ∧
    1000 * (n1 / 1000) ≤ 1000 * (n2 / 1000) ≤ n2.
Proof.
  intros (Hm & Hj & Hl) Hzero Hrows Hlen. split.
  { intros n. split; [|done].
    rewrite <- (at_job_id σ l r Hl) at 1. rewrite Hm.
    rewrite exec_updateJobProgress by done. f_equal. by apply at_job_set_heap. }
  assert (∀ rows, Forall three_fields rows →
            Z.of_nat (length rows) ≤ GoInt.max_int →
            exec (read_loop jobID rows ∅ 0) σ
            = Ok (Some (add_sales (sales_of rows) ∅, Z.of_nat (length (sales_of rows))))
                (set_heap
                   <[l := assign (SetTotalRecords
                                    (1000 * (Z.of_nat (length (sales_of rows)) / 1000))) r]>
                   σ)) as Hloop.
  { intros rows Hshaped Hmax.
    rewrite <- (at_job_id σ l r Hl) at 1. rewrite Hm.
    rewrite exec_read_loop by done. cbn zeta. rewrite Hzero.
    destruct (scan_shaped rows Hshaped ∅ 0 0) as [-> ->].
    pose proof (scan_count rows ∅ 0 (Z.le_refl 0)) as Hc.
    cbn zeta in Hc. change (1000 * (0 / 1000)) with 0 in Hc.
    destruct Hc as [_ ->]; [lia|].
    rewrite scan_accepted by (done || lia).
    rewrite Z.add_0_l. f_equal. by apply at_job_set_heap. }
  assert (Forall three_fields pre) as Hpre by (by apply Forall_app in Hrows as [? _]).
  assert (Z.of_nat (length pre) ≤ GoInt.max_int) as Hlenpre
      by (rewrite length_app in Hlen; lia).
  eexists _, _. cbn zeta.
  split; [by apply Hloop|]. split; [|split; [by apply Hloop|]].
  - by rewrite exec_read_loop_app, (Hloop pre Hpre Hlenpre).
  - assert (length (sales_of pre) ≤ length (sales_of (pre ++ ext)))%nat.
    { unfold sales_of. rewrite omap_app, length_app. lia. }
    split.
    + apply Z.mul_le_mono_nonneg_l; [lia|]. apply Z.div_le_mono; lia.
    + apply Z.mul_div_le. lia.
Qed.


(** C10: an empty input file has no header row; reading the header meets
    the end of the input, the job ends "error" with the message
    "Failed to read header: EOF", and no file is written or removed. *)
Theorem C10_empty_file_fails σ jobID filePath l r :
  registered σ jobID l r →
  fs σ !! filePath = Some (Upload []) →
  ∃ σ' r',
    exec (processCSVFile p jobID filePath) σ = Ok tt σ' ∧
    heap σ' !! l = Some r' ∧
    Status r' = "error" ∧
    Error r' = "Failed to read header: EOF" ∧
    fs σ' = fs σ.
Proof.
  intros (Hm & Hj & Hl) Hfs.
  rewrite (exec_processCSVFile p jobID filePath σ l r Hm Hj Hl).
  unfold processed. rewrite Hfs. cbn.
  eexists _, _. split; [reflexivity|]. split; [apply lookup_insert_eq|]. done.
Qed.

End claims.

(** ** The invariant of the interleaved system *)

Lemma action_ok_mono ids ids' a : ids ⊆ ids' → action_ok ids a → action_ok ids' a.
Proof. intros Hsub. destruct a; cbn; auto. Qed.

Lemma ids_after_mono ids ids' a r :
  ids ⊆ ids' → ids_after ids a r ⊆ ids_after ids' a r.
Proof.
  intros Hsub. destruct a; cbn; auto.
  intros x [->|?]%elem_of_cons; [by left|right; auto].
Qed.

Lemma ids_after_grows ids a r : ids ⊆ ids_after ids a r.
Proof. destruct a; cbn; try done. intros x ?. by right. Qed.

Lemma tame_mono {A} (q : prog A) :
  ∀ ids ids', ids ⊆ ids' → tame q ids → tame q ids'.
Proof.
  induction q as [| |a k IH]; intros ids ids' Hsub; cbn; [done..|].
  intros [Ha Hk]. split; [by eapply action_ok_mono|].
  intros r. eapply IH; [|apply Hk]. by apply ids_after_mono.
Qed.

Lemma tame_bind {A B} (q : prog A) (f : A → prog B) :
  ∀ ids,
    tame q ids →
    (∀ a ids', ids ⊆ ids' → tame (f a) ids') →
    tame (q ≫= f) ids.
Proof.
  induction q as [a| |a k IH]; intros ids Hq Hf.
  - by apply Hf.
  - done.
  - destruct Hq as [Ha Hk].
    change (action_ok ids a ∧ ∀ r, tame (k r ≫= f) (ids_after ids a r)).
    split; [done|]. intros r. apply IH; [done|].
    intros b ids' Hsub. apply Hf. etrans; [apply ids_after_grows|done].
Qed.

Lemma tame_act a ids : action_ok ids a → tame (act a) ids.
Proof. intros Ha. by split. Qed.

(** Walking through a program, one action at a time. *)
Ltac tame_walk :=
  repeat match goal with
  | |- tame (Ret _) _ => exact I
  | |- tame (mret _) _ => exact I
  | |- tame Panic _ => exact I
  | |- tame (act _) _ => apply tame_act; cbn
  | |- tame (Vis _ Ret) _ => apply tame_act; cbn
  | |- tame (mbind _ _) _ => apply tame_bind; [|intros ? ? ?]
  | |- tame (prog_bind _ _ _ _) _ => apply tame_bind; [|intros ? ? ?]
  | |- tame (match ?x with Some _ => _ | None => _ end) _ => destruct x
  | |- tame (if ?b then _ else _) _ => destruct b
  | |- True => exact I
  end.

Lemma tame_updateJobError jobID msg ids : tame (updateJobError jobID msg) ids.
Proof. unfold updateJobError. tame_walk. by right; right. Qed.

Lemma tame_updateJobProgress jobID n ids : tame (updateJobProgress jobID n) ids.
Proof. unfold updateJobProgress. tame_walk. Qed.

Lemma tame_GetJobStatus jobID ids : tame (GetJobStatus jobID) ids.
Proof. unfold GetJobStatus. tame_walk. Qed.

Lemma tame_query jobID ids : tame (query jobID) ids.
Proof.
  unfold query. apply tame_bind; [apply tame_GetJobStatus|].
  intros [result found] ids' _. tame_walk.
Qed.

Lemma tame_ProcessCSVAsync filePath ids : tame (ProcessCSVAsync filePath) ids.
Proof.
  unfold ProcessCSVAsync. split; [done|]. intros jobID.
  change (tame (result ← act (New (new_job jobID));
                act Lock;; act (JobsStore jobID result);; act Unlock;;
                act (Go jobID filePath);; mret jobID) (jobID :: ids)).
  tame_walk; [by left|].
  repeat match goal with
         | Hsub : _ ⊆ ?ids' |- _ ∈ ?ids' => apply Hsub
         end.
  by left.
Qed.

Lemma tame_submit filePath ids : tame (submit filePath) ids.
Proof.
  unfold submit. apply tame_bind; [apply tame_ProcessCSVAsync|]. by intros.
Qed.

Lemma perform_issued a σ r σ' :
  perform a σ = Ok r σ' → issued σ' = ids_after (issued σ) a r.
Proof.
  destruct a; cbn; intros Hp;
    repeat match type of Hp with
           | context [match ?x with _ => _ end] => destruct x
           end;
    try discriminate; by injection Hp as <- <-.
Qed.

Lemma perform_heap a σ r σ' :
  perform a σ = Ok r σ' →
  action_ok (issued σ) a →
  (∀ l r, heap σ !! l = Some r → valid_status (Status r)) →
  ∀ l r, heap σ' !! l = Some r → valid_status (Status r).
Proof.
  intros Hp Hok Hheap l0 r0.
  destruct a; cbn in Hp;
    repeat match type of Hp with
           | context [match ?x with _ => _ end] => destruct x eqn:?
           end;
    try discriminate; injection Hp as <- <-; cbn; try apply Hheap.
  - (* New *)
    destruct (decide (fresh (dom (heap σ)) = l0)) as [<-|Hne].
    + rewrite lookup_insert_eq. by intros [= <-].
    + rewrite lookup_insert_ne by done. apply Hheap.
  - (* Assign *)
    destruct (decide (l = l0)) as [<-|Hne].
    + rewrite lookup_insert_eq. intros [= <-].
      destruct w; unfold assign; cbn in *; try done; by eapply Hheap.
    + rewrite lookup_insert_ne by done. apply Hheap.
Qed.

Lemma perform_jobs a σ r σ' :
  perform a σ = Ok r σ' →
  action_ok (issued σ) a →
  (∀ jobID, is_Some (jobs σ !! jobID) → jobID ∈ issued σ) →
  ∀ jobID, is_Some (jobs σ' !! jobID) → jobID ∈ issued σ'.
Proof.
  intros Hp Hok Hjobs j.
  destruct a; cbn in Hp;
    repeat match type of Hp with
           | context [match ?x with _ => _ end] => destruct x eqn:?
           end;
    try discriminate; injection Hp as <- <-; cbn; try apply Hjobs.
  - (* JobsStore *)
    destruct (decide (jobID = j)) as [<-|Hne]; [done|].
    rewrite lookup_insert_ne by done. apply Hjobs.
  - (* uuid_New *)
    intros Hj. right. by apply Hjobs.
Qed.

Section invariance.
Context `{Runtime}.
Variable p : CSVProcessor.

Lemma tame_index record i ids : tame (index record i) ids.
Proof. unfold index. by destruct (record !! i). Qed.

Lemma tame_write_records out entries : ∀ ids, tame (write_records out entries) ids.
Proof.
  induction entries as [|[department total] entries IH]; intros ids; [done|].
  cbn [write_records]. tame_walk. apply IH.
Qed.

Lemma tame_writeResultCSV out t ids : tame (writeResultCSV out t) ids.
Proof. unfold writeResultCSV. tame_walk. apply tame_write_records. Qed.

Lemma tame_read_loop jobID reader :
  ∀ t count ids, tame (read_loop jobID reader t count) ids.
Proof.
  induction reader as [|l reader IH]; intros t count ids; [done|].
  cbn [read_loop]. destruct (csv.check 3 l) as [err|record].
  - apply tame_bind; [apply tame_updateJobError|done].
  - apply tame_bind; [apply tame_index|]. intros field ids1 _.
    destruct (strconv.Atoi field) as [sales|]; [|apply IH].
    apply tame_bind; [apply tame_index|]. intros department ids2 _.
    apply tame_bind; [|intros; apply IH].
    case_bool_decide; [apply tame_updateJobProgress|done].
Qed.

Lemma tame_processCSVFile jobID filePath ids :
  tame (processCSVFile p jobID filePath) ids.
Proof.
  unfold processCSVFile. tame_walk.
  destruct a3 as [err|reader]; [apply tame_updateJobError|].
  destruct reader as [|header reader]; cbn [csv.Read];
    [apply tame_updateJobError|].
  destruct (csv.check 3 header); [apply tame_updateJobError..|].
  apply tame_bind; [apply tame_read_loop|].
  intros [[departmentTotals recordCount]|] ids1 _; [|done].
  apply tame_bind; [apply tame_writeResultCSV|].
  intros [e|] ids2 _; [apply tame_updateJobError|].
  tame_walk. by right; left.
Qed.

Lemma tame_spawned a ids : Forall (λ q, tame q ids) (spawned p a).
Proof.
  destruct a; cbn; try by constructor.
  constructor; [apply tame_processCSVFile|constructor].
Qed.

Lemma step_invariant c c' : step p c c' → invariant c → invariant c'.
Proof.
  intros Hstep (Hheap & Hjobs & Hpool).
  destruct Hstep as [c i a k r σ' Hi Hp|c filePath|c jobID|c σ' Hsame].
  - assert (tame (Vis a k) (issued (shared c))) as [Hok Hk].
    { eapply Forall_lookup_1 in Hpool; [|done]. done. }
    split; [|split]; cbn.
    + by eapply perform_heap.
    + by eapply perform_jobs.
    + rewrite (perform_issued a (shared c) r σ' Hp).
      apply Forall_app. split; [|apply tame_spawned].
      apply Forall_insert; [|apply Hk].
      eapply Forall_impl; [done|]. intros q Hq; cbn in *.
      eapply tame_mono; [|done]. apply ids_after_grows.
  - split; [done|]. split; [done|]. cbn.
    apply Forall_app. split; [done|]. constructor; [apply tame_submit|constructor].
  - split; [done|]. split; [done|]. cbn.
    apply Forall_app. split; [done|]. constructor; [apply tame_query|constructor].
  - destruct Hsame as (Hj & _ & Hh & Hi). split; [|split]; cbn.
    + by rewrite Hh.
    + by rewrite Hj, Hi.
    + by rewrite Hi.
Qed.

Lemma reachable_invariant c : reachable p c → invariant c.
Proof.
  intros (files & refused & ids & times & Hrtc).
  eapply (rtc_ind_r invariant); [| |exact Hrtc].
  - split; [|split]; cbn.
    + intros l r. by rewrite lookup_empty.
    + intros jobID [l Hl]. by rewrite lookup_empty in Hl.
    + constructor.
  - intros c1 c2 _ Hstep Hinv. by eapply step_invariant.
Qed.

(** A run of a goroutine on its own is one of the schedules of the
    interleaved system: the one in which nobody else moves meanwhile. *)
Lemma exec_is_a_schedule (q : prog unit) :
  ∀ σ σ' pl i,
    pl !! i = Some q →
    exec q σ = Ok tt σ' →
    ∃ pl',
      rtc (step p) {| shared := σ; pool := pl |} {| shared := σ'; pool := pl' |} ∧
      pl' !! i = Some (Ret tt).
Proof.
  induction q as [[]| |a k IH]; intros σ σ' pl i Hi Hexec.
  - injection Hexec as <-. by exists pl.
  - done.
  - rewrite exec_Vis in Hexec.
    destruct (perform a σ) as [r σ1| |] eqn:Hp; [|done..].
    cbn [then_run] in Hexec.
    destruct (IH r σ1 σ' (<[i := k r]> pl ++ spawned p a)%list i) as (pl' & Hsteps & Hi');
      [|done|].
    { rewrite lookup_app_l by (rewrite length_insert; by eapply lookup_lt_Some).
      apply list_lookup_insert_eq. by eapply lookup_lt_Some. }
    exists pl'. split; [|done].
    eapply rtc_l; [|done].
    by apply (step_goroutine p {| shared := σ; pool := pl |} i a k r σ1).
Qed.

Lemma play1_step m c c' : play1 p m c = Some c' → step p c c'.
Proof.
  destruct m as [i|filePath|jobID]; cbn.
  - destruct (pool c !! i) as [[| |a k]|] eqn:Hi; try done.
    destruct (perform a (shared c)) as [r σ'| |] eqn:Hp; try done.
    intros [= <-]. by eapply step_goroutine.
  - intros [= <-]. apply step_submit.
  - intros [= <-]. apply step_query.
Qed.

Lemma play_steps ms : ∀ c c', play p ms c = Some c' → rtc (step p) c c'.
Proof.
  induction ms as [|m ms IH]; intros c c'; cbn.
  - by intros [= <-].
  - destruct (play1 p m c) as [c1|] eqn:H1; [|done].
    intros Hplay. eapply rtc_l; [by apply (play1_step m)|by apply IH].
Qed.

Lemma played_reachable ms files refused ids times :
  reachable p (played p ms files refused ids times).
Proof.
  exists files, refused, ids, times. unfold played.
  destruct (play p ms _) as [c|] eqn:Hplay; cbn; [by apply (play_steps ms)|done].
Qed.

End invariance.

(** ** The specification's claims about the registry *)

Section registry_claims.
Context `{Runtime}.
Variable p : CSVProcessor.

(** C6: in every reachable configuration the status of every job (indeed of
    every record on the heap) is one of "processing", "completed" and
    "error"; and a submission made from it creates the job's record with
    "processing". *)
Theorem C6_status_values c jobID r :
  reachable p c →
  job_of jobID (shared c) = Some r →
  (Status r = "processing" ∨ Status r = "completed" ∨ Status r = "error") ∧
  (∀ l' r', heap (shared c) !! l' = Some r' →
     Status r' = "processing" ∨ Status r' = "completed" ∨ Status r' = "error") ∧
  (∀ filePath u rest,
     jobsMutex (shared c) = unlocked → uuids (shared c) = u :: rest →
     ∃ σ',
       exec (ProcessCSVAsync filePath) (shared c) = Ok u σ' ∧
       job_of u σ' = Some (new_job u) ∧
       Status (new_job u) = "processing").
Proof.
  intros Hreach Hjob.
  destruct (reachable_invariant p c Hreach) as (Hheap & _ & _).
  split; [|split].
  - unfold job_of in Hjob.
    destruct (jobs (shared c) !! jobID) as [l|]; [|done].
    by apply (Hheap l r).
  - apply Hheap.
  - intros filePath u rest Hm Hu.
    rewrite (exec_ProcessCSVAsync filePath _ u rest Hm Hu).
    eexists. split; [reflexivity|]. unfold job_of. cbn.
    rewrite lookup_insert_eq. cbn. by rewrite lookup_insert_eq.
Qed.

(** C9: an id that [uuid.New] never returned (so that no submission, done
    or under way, was given it) is not in the registry of any reachable
    configuration, however many jobs there are; and whenever no writer
    holds the lock, [GetJobStatus] on it returns [(nil, false)] and changes
    nothing. *)
Theorem C9_unknown_id_not_found c jobID :
  reachable p c →
  jobID ∉ issued (shared c) →
  jobs (shared c) !! jobID = None ∧
  (writer (jobsMutex (shared c)) = false →
   exec (GetJobStatus jobID) (shared c) = Ok (None, false) (shared c)).
Proof.
  intros Hreach Hid.
  destruct (reachable_invariant p c Hreach) as (_ & Hjobs & _).
  assert (jobs (shared c) !! jobID = None) as Hnone.
  { destruct (jobs (shared c) !! jobID) as [l|] eqn:Hj; [|done].
    destruct Hid. apply Hjobs. by eexists. }
  split; [done|]. intros Hw.
  rewrite exec_GetJobStatus by done. by rewrite Hnone.
Qed.

(** C4 (as amended): for a registered job [GetJobStatus] returns the
    registry's own pointer to the job's record, with [found = true], and
    changes nothing.  The result is not a copy: what the job's worker
    writes afterwards (a progress update, a failure, the completion) is
    what a reader finds behind that pointer. *)
Theorem C4_query_returns_live_record σ jobID l r :
  registered σ jobID l r →
  exec (GetJobStatus jobID) σ = Ok (Some l, true) σ ∧
  (∀ n, exec (updateJobProgress jobID n;; act (Deref l)) σ
        = Ok (assign (SetTotalRecords n) r)
            (set_heap <[l := assign (SetTotalRecords n) r]> σ)) ∧
  (∀ msg, exec (updateJobError jobID msg;; act (Deref l)) σ
          = Ok (failed msg r) (set_heap <[l := failed msg r]> σ)) ∧
  (∀ filePath, ∃ (r' : ProcessingResult) σ',
     exec (processCSVFile p jobID filePath;; act (Deref l)) σ = Ok r' σ' ∧
     heap σ' !! l = Some r' ∧
     (Status r' = "completed" ∨ Status r' = "error")).
Proof.
  intros (Hm & Hj & Hl). split; [|split; [|split]].
  - rewrite exec_GetJobStatus by (by rewrite Hm). by rewrite Hj.
  - intros n. rewrite exec_bind.
    rewrite <- (at_job_id σ l r Hl) at 1. rewrite Hm.
    rewrite exec_updateJobProgress by done. run. f_equal.
    by apply at_job_set_heap.
  - intros msg. rewrite exec_bind.
    rewrite <- (at_job_id σ l r Hl) at 1. rewrite Hm.
    rewrite exec_updateJobError by done. run. f_equal.
    by apply at_job_set_heap.
  - intros filePath. rewrite exec_bind.
    rewrite (exec_processCSVFile p jobID filePath σ l r Hm Hj Hl).
    destruct (processed_dichotomy p σ jobID filePath l r)
      as (r' & Hr' & _ & Hcases).
    exists r', (processed p jobID filePath σ l r).
    cbn [then_run]. split; [by apply exec_Deref|]. split; [done|].
    destruct Hcases as [[? _]|[? _]]; [by left|by right].
Qed.

End registry_claims.

(** ** The claims on concrete files *)

Example demo_submitted_registered lines :
  registered (demo_submitted lines) "job-1" demo_job (new_job "job-1").
Proof. by vm_compute. Qed.

(** The example of the specification: three rows, two categories. *)
Example demo_completes :
  ∃ σ', demo_run demo_lines = Ok tt σ' ∧
        job_of "job-1" σ'
        = Some {| JobID := "job-1"; Status := "completed";
                  DownloadURL := "/download/result_job-1.csv";
                  ProcessingTime := 15; DepartmentCount := 2;
                  TotalRecords := 3; Error := "" |} ∧
        fs σ' !! "results/result_job-1.csv"
        = Some (Artifact [result_header; ["Sales"; "350"]; ["Marketing"; "75"]]) ∧
        fs σ' !! "uploads/in.csv" = None.
Proof. eexists. split; [by vm_compute|]. by vm_compute. Qed.

(** The test of the repository: four rows, two departments. *)
Example test_completes :
  ∃ σ', demo_run [ header_line;
                   csv.Fields 2 ["Sales"; "2024-01-01"; "100"];
                   csv.Fields 3 ["Marketing"; "2024-01-01"; "50"];
                   csv.Fields 4 ["Sales"; "2024-01-02"; "150"];
                   csv.Fields 5 ["Marketing"; "2024-01-02"; "75"] ] = Ok tt σ' ∧
        (Status <$> job_of "job-1" σ') = Some "completed" ∧
        (DepartmentCount <$> job_of "job-1" σ') = Some 2 ∧
        (TotalRecords <$> job_of "job-1" σ') = Some 4.
Proof. eexists. split; [by vm_compute|]. by vm_compute. Qed.



(** Against C5 as stated: a header of two fields over well-formed rows
    fails the job, while the same rows under a header of three fields are
    processed to completion. *)
Lemma C5_counterexample_header_field_count :
  let rows := [csv.Fields 2 ["Sales"; "2023-01-15"; "150"]] in
  (∃ σ' r', demo_run (csv.Fields 1 ["Department Name"; "Date"] :: rows) = Ok tt σ' ∧
            job_of "job-1" σ' = Some r' ∧
            Status r' = "error" ∧
            Error r' = "Failed to read header: record on line 1: wrong number of fields") ∧
  (∃ σ' r', demo_run (header_line :: rows) = Ok tt σ' ∧
            job_of "job-1" σ' = Some r' ∧ Status r' = "completed").
Proof.
  split; eexists _, _; (split; [by vm_compute|]); (split; [by vm_compute|]);
    by vm_compute.
Qed.

(** Against C4 as stated: the record behind the pointer [GetJobStatus]
    returned says "processing" when it is returned and "completed" once the
    worker has run: what was returned is not a copy. *)
Lemma C4_counterexample_not_a_copy :
  ∃ (l : loc) (r1 r2 : ProcessingResult) σ2,
    exec (GetJobStatus "job-1") (demo_submitted demo_lines)
    = Ok (Some l, true) (demo_submitted demo_lines) ∧
    exec (act (Deref l)) (demo_submitted demo_lines)
    = Ok r1 (demo_submitted demo_lines) ∧
    exec (processCSVFile demo_processor "job-1" "uploads/in.csv")
      (demo_submitted demo_lines) = Ok tt σ2 ∧
    exec (act (Deref l)) σ2 = Ok r2 σ2 ∧
    Status r1 = "processing" ∧ Status r2 = "completed" ∧
    TotalRecords r1 = 0 ∧ TotalRecords r2 = 3 ∧ r1 ≠ r2.
Proof.
  exists demo_job. eexists _, _, _.
  split; [by vm_compute|]. split; [by vm_compute|]. split; [by vm_compute|].
  split; [by vm_compute|]. by vm_compute.
Qed.

Lemma demo_config_reachable : reachable demo_processor demo_config.
Proof. apply played_reachable. Qed.

Lemma reader_meets_half_written_record :
  reachable demo_processor racing_config ∧
  writer (jobsMutex (shared racing_config)) = true ∧
  ∃ k (r : ProcessingResult),
    pool racing_config !! 2%nat = Some (Vis (Deref demo_job) k) ∧
    perform (Deref demo_job) (shared racing_config) = Ok r (shared racing_config) ∧
    Status r = "completed" ∧ DownloadURL r = "" ∧
    DepartmentCount r = 0 ∧ TotalRecords r = 0.
Proof.
  split; [apply played_reachable|]. split; [by vm_compute|].
  eexists _, _. split; [by vm_compute|]. split; [by vm_compute|]. by vm_compute.
Qed.

(** ** The theorems at concrete inputs *)




Lemma C5_witness :
  ∃ σ1 σ2,
    exec (processCSVFile demo_processor "job-1" "uploads/in.csv")
      (set_fs <[ "uploads/in.csv" := Upload (header_line :: tail demo_lines) ]>
         (demo_submitted demo_lines)) = Ok tt σ1 ∧
    exec (processCSVFile demo_processor "job-1" "uploads/in.csv")
      (set_fs <[ "uploads/in.csv" :=
                   Upload (csv.Fields 1 ["a"; "b"; "c"] :: tail demo_lines) ]>
         (demo_submitted demo_lines)) = Ok tt σ2 ∧
    same_outcome "uploads/in.csv" σ1 σ2.
Proof.
  destruct (C5_header_contents_ignored demo_processor (demo_submitted demo_lines)
              "job-1" "uploads/in.csv" demo_job (new_job "job-1")
              header_line (csv.Fields 1 ["a"; "b"; "c"]) (tail demo_lines))
    as (σ1 & σ2 & H1 & H2 & Hsame & _).
  - apply demo_submitted_registered.
  - by eexists _, _, _, _.
  - by eexists _, _, _, _.
  - exists σ1, σ2. split; [exact H1|]. split; [exact H2|]. exact Hsame.
Defined.

Lemma C7_witness :
  exec (updateJobProgress "job-1" 1000) (demo_submitted demo_lines)
  = Ok tt (set_heap <[demo_job := assign (SetTotalRecords 1000) (new_job "job-1")]>
             (demo_submitted demo_lines)).
Proof.
  destruct (C7_progress_checkpoints (demo_submitted demo_lines) "job-1" demo_job
              (new_job "job-1") thousand_rows
              [csv.Fields 1002 ["Sales"; "2024-01-02"; "7"]]) as [Hframe _].
  - apply demo_submitted_registered.
  - reflexivity.
  - apply Forall_app. split.
    + apply Forall_fmap, Forall_forall. intros i _. by eexists _, _, _, _.
    + repeat constructor. by eexists _, _, _, _.
  - by vm_compute.
  - apply Hframe.
Defined.


Lemma C10_witness :
  ∃ σ' r',
    exec (processCSVFile demo_processor "job-1" "uploads/in.csv")
      (demo_submitted []) = Ok tt σ' ∧
    heap σ' !! demo_job = Some r' ∧
    Status r' = "error" ∧ Error r' = "Failed to read header: EOF" ∧
    fs σ' = fs (demo_submitted []).
Proof.
  apply (C10_empty_file_fails demo_processor (demo_submitted [])
           "job-1" "uploads/in.csv" demo_job (new_job "job-1")).
  - apply demo_submitted_registered.
  - by vm_compute.
Defined.

Lemma C6_witness :
  Status (completed "/download/result_job-1.csv" 15 2 3 (new_job "job-1"))
  = "processing" ∨
  Status (completed "/download/result_job-1.csv" 15 2 3 (new_job "job-1"))
  = "completed" ∨
  Status (completed "/download/result_job-1.csv" 15 2 3 (new_job "job-1"))
  = "error".
Proof.
  apply (C6_status_values demo_processor demo_config "job-1"
           (completed "/download/result_job-1.csv" 15 2 3 (new_job "job-1"))).
  - apply demo_config_reachable.
  - by vm_compute.
Defined.

Lemma C9_witness :
  exec (GetJobStatus "job-2") (shared demo_config)
  = Ok (None, false) (shared demo_config).
Proof.
  apply (C9_unknown_id_not_found demo_processor demo_config "job-2").
  - apply demo_config_reachable.
  - assert (issued (shared demo_config) = ["job-1"]) as -> by (by vm_compute).
    apply not_elem_of_cons. split; [done|apply not_elem_of_nil].
  - by vm_compute.
Defined.

Lemma C4_witness :
  exec (GetJobStatus "job-1") (demo_submitted demo_lines)
  = Ok (Some demo_job, true) (demo_submitted demo_lines).
Proof.
  apply (C4_query_returns_live_record demo_processor (demo_submitted demo_lines)
           "job-1" demo_job (new_job "job-1")).
  apply demo_submitted_registered.
Defined.

(** * Part III: further properties of the code *)

(** ** Decimal text read back *)

Lemma digit_pretty_N_char y :
  (y < 10)%N → strconv.digit (pretty_N_char y) = Some (Z.of_N y).
Proof.
  intros Hy.
  assert (y = 0 ∨ y = 1 ∨ y = 2 ∨ y = 3 ∨ y = 4 ∨ y = 5 ∨ y = 6 ∨ y = 7
          ∨ y = 8 ∨ y = 9)%N as Hcases by lia.
  repeat (destruct Hcases as [->|Hcases]; [reflexivity|]). by subst.
Qed.

Lemma digits_pretty_N_go x :
  ∀ s, strconv.digits (pretty_N_go x s) 0 = strconv.digits s (Z.of_N x).
Proof.
  induction (N.lt_wf_0 x) as [x _ IH]; intros s.
  destruct (decide (x = 0)%N) as [->|Hx]; [by rewrite pretty_N_go_0|].
  rewrite pretty_N_go_step by lia.
  rewrite IH by (apply N.div_lt; lia). cbn [strconv.digits].
  rewrite digit_pretty_N_char by (apply N.mod_lt; lia).
  f_equal. pose proof (N.div_mod x 10 ltac:(done)) as Hdm.
  generalize dependent (x `div` 10)%N. generalize dependent (x `mod` 10)%N.
  intros. lia.
Qed.

Lemma pretty_N_go_head x :
  (0 < x)%N →
  ∀ s, ∃ c s', pretty_N_go x s = String c s' ∧ is_Some (strconv.digit c).
Proof.
  induction (N.lt_wf_0 x) as [x _ IH]; intros Hx s.
  rewrite pretty_N_go_step by done.
  destruct (decide (x `div` 10 = 0)%N) as [->|Hd].
  - rewrite pretty_N_go_0. eexists _, _. split; [done|].
    rewrite digit_pretty_N_char by (apply N.mod_lt; lia). by eexists.
  - apply IH; [apply N.div_lt; lia|by apply N.neq_0_lt_0].
Qed.

Lemma Atoi_unsigned c s :
  is_Some (strconv.digit c) →
  strconv.Atoi (String c s)
  = match strconv.digits (String c s) 0 with
    | Some n => if bool_decide (GoInt.min_int ≤ n ≤ GoInt.max_int) then Some n else None
    | None => None
    end.
Proof.
  intros [d Hd].
  destruct c as [[] [] [] [] [] [] [] []]; try done.
Qed.

(** [strconv.Atoi] reads back what [strconv.Itoa] (and [%d]) prints. *)
Lemma Atoi_Itoa z : GoInt.in_range z → strconv.Atoi (strconv.Itoa z) = Some z.
Proof.
  intros Hz. unfold strconv.Itoa, pretty, pretty_Z.
  destruct z as [|x|x]; [done|..].
  - unfold pretty, pretty_positive, pretty, pretty_N. cbn [decide].
    rewrite decide_False by done.
    destruct (pretty_N_go_head (N.pos x) eq_refl "") as (c & s' & Hs & Hc).
    rewrite Hs, Atoi_unsigned by done. rewrite <- Hs, digits_pretty_N_go. cbn.
    by rewrite bool_decide_true.
  - unfold pretty, pretty_positive, pretty, pretty_N.
    rewrite decide_False by done.
    destruct (pretty_N_go_head (N.pos x) eq_refl "") as (c & s' & Hs & Hc).
    change ("-" +:+ ?s) with (String "-" s). unfold strconv.Atoi.
    rewrite Hs. rewrite <- Hs, digits_pretty_N_go. cbn.
    by rewrite bool_decide_true.
Qed.

(** ** The registry operations on an id that is not registered *)

Lemma exec_updateJobError_absent σ jobID errorMsg :
  jobsMutex σ = unlocked → jobs σ !! jobID = None →
  exec (updateJobError jobID errorMsg) σ = Ok tt σ.
Proof.
  intros Hm Hj. destruct σ as [js mu hp files den us ck iss]; cbn in *; subst.
  unfold updateJobError. run. rewrite Hj. by run.
Qed.

Lemma exec_updateJobProgress_absent σ jobID n :
  jobsMutex σ = unlocked → jobs σ !! jobID = None →
  exec (updateJobProgress jobID n) σ = Ok tt σ.
Proof.
  intros Hm Hj. destruct σ as [js mu hp files den us ck iss]; cbn in *; subst.
  unfold updateJobProgress. run. rewrite Hj. by run.
Qed.

(** X1: [updateJobError] and [updateJobProgress] called with an id that is
    not in the registry take and release the lock and change nothing: no
    record is created for the id and no error is raised. *)
Theorem X1_updates_ignore_unknown_id σ jobID errorMsg n :
  jobsMutex σ = unlocked →
  jobs σ !! jobID = None →
  exec (updateJobError jobID errorMsg) σ = Ok tt σ ∧
  exec (updateJobProgress jobID n) σ = Ok tt σ.
Proof.
  intros Hm Hj. split.
  - by apply exec_updateJobError_absent.
  - by apply exec_updateJobProgress_absent.
Qed.

(** ** Submission *)

(** X2: a submission followed by a query.  [ProcessCSVAsync] returns the id
    drawn from the generator; [GetJobStatus] on that id then finds a record
    with that [JobID], status "processing" and every other field zero.  The
    record is a new allocation, so no record that existed before is
    touched, the registry changes at the new id only, and the submission
    itself reads and writes no file. *)
Theorem X2_submit_then_query filePath σ u rest :
  jobsMutex σ = unlocked →
  uuids σ = u :: rest →
  ∃ σ' l,
    exec (ProcessCSVAsync filePath) σ = Ok u σ' ∧
    exec (GetJobStatus u) σ' = Ok (Some l, true) σ' ∧
    heap σ !! l = None ∧
    heap σ' = <[l := new_job u]> (heap σ) ∧
    jobs σ' = <[u := l]> (jobs σ) ∧
    fs σ' = fs σ ∧ jobsMutex σ' = unlocked.
Proof.
  intros Hm Hu. eexists _, (fresh (dom (heap σ))).
  split; [by apply exec_ProcessCSVAsync|].
  split.
  { rewrite exec_GetJobStatus by done. cbn. by rewrite lookup_insert_eq. }
  split; [|done]. apply not_elem_of_dom, is_fresh.
Qed.

(** X3: two submissions in a row allocate two different records; when the
    generator returns two different ids both jobs are in the registry, each
    with its own record in status "processing". *)
Theorem X3_two_submissions σ file1 file2 u1 u2 rest :
  jobsMutex σ = unlocked →
  uuids σ = u1 :: u2 :: rest →
  u1 ≠ u2 →
  ∃ σ' l1 l2,
    exec (id1 ← ProcessCSVAsync file1; id2 ← ProcessCSVAsync file2; mret (id1, id2)) σ
    = Ok (u1, u2) σ' ∧
    l1 ≠ l2 ∧
    jobs σ' !! u1 = Some l1 ∧ heap σ' !! l1 = Some (new_job u1) ∧
    jobs σ' !! u2 = Some l2 ∧ heap σ' !! l2 = Some (new_job u2).
Proof.
  intros Hm Hu Hne.
  set (l1 := fresh (dom (heap σ))).
  set (l2 := fresh (dom (<[l1 := new_job u1]> (heap σ)))).
  assert (l2 ≠ l1) as Hl.
  { intros Heq. apply (is_fresh (dom (<[l1 := new_job u1]> (heap σ)))).
    fold l2. rewrite Heq. apply elem_of_dom. rewrite lookup_insert_eq. by eexists. }
  eexists _, l1, l2. split.
  { rewrite exec_bind, (exec_ProcessCSVAsync file1 σ u1 (u2 :: rest)) by done.
    cbn [then_run]. rewrite exec_bind.
    erewrite (exec_ProcessCSVAsync file2 _ u2 rest) by done.
    cbn [then_run]. reflexivity. }
  cbn. split; [done|].
  rewrite lookup_insert_ne, lookup_insert_eq by done.
  rewrite (lookup_insert_ne _ l2 l1), !lookup_insert_eq by done.
  done.
Qed.

(** ** The result writer *)

Lemma exec_write_records_fs `{Runtime} out entries js mu hp den us ck iss :
  ∀ files records,
    exec (write_records out entries)
      {| jobs := js; jobsMutex := mu; heap := hp;
         fs := <[out := Artifact records]> files;
         denied := den; uuids := us; clock := ck; issued := iss |}
    = Ok None
        {| jobs := js; jobsMutex := mu; heap := hp;
           fs := <[out := Artifact (records ++ map encode entries)]> files;
           denied := den; uuids := us; clock := ck; issued := iss |}.
Proof.
  induction entries as [|[department total] entries IH]; intros files records.
  - cbn. by rewrite app_nil_r.
  - cbn [write_records]. run. unfold set_fs. cbn.
    rewrite alter_insert_eq. cbn.
    rewrite IH. by rewrite <- app_assoc.
Qed.

Lemma exec_writeResultCSV_fs `{Runtime} out t σ :
  denied σ !! out = None →
  exec (writeResultCSV out t) σ = Ok None (set_fs <[out := artifact t]> σ).
Proof.
  intros Hd. destruct σ as [js mu hp files den us ck iss]; cbn in *.
  unfold writeResultCSV. run. rewrite Hd. run. unfold set_fs. cbn.
  rewrite alter_insert_eq. cbn.
  by rewrite exec_write_records_fs.
Qed.

Lemma encode_inj e1 e2 : encode e1 = encode e2 → e1 = e2.
Proof.
  destruct e1 as [d1 v1], e2 as [d2 v2]. unfold encode. cbn. intros [= -> Hv].
  f_equal. by apply (inj pretty).
Qed.


(** ** More on the fold *)

Lemma scan_app pre ext :
  Forall three_fields pre →
  ∀ t c cp,
    scan (pre ++ ext) t c cp
    = scan ext (totals (scan pre t c cp)) (accepted (scan pre t c cp))
        (checkpoint (scan pre t c cp)).
Proof.
  induction 1 as [|l pre (n & a & b & d & ->) _ IH]; intros t c cp; [done|].
  cbn. destruct (strconv.Atoi d) as [v|]; apply IH.
Qed.

Lemma scan_misshapen n fields post t c cp :
  length fields ≠ 3%nat →
  scan (csv.Fields n fields :: post) t c cp
  = {| totals := t; accepted := c; checkpoint := cp;
       failure := Some ("Error reading CSV: " +:+ csv.ErrFieldCount n) |}.
Proof. intros Hlen. by destruct fields as [|a [|b [|d [|? ?]]]]. Qed.

Lemma total_in_perm c sales1 sales2 :
  sales1 ≡ₚ sales2 → total_in c sales1 = total_in c sales2.
Proof.
  induction 1 as [|e s1 s2 _ IH|e1 e2 s|s1 s2 s3 _ IH1 _ IH2]; cbn.
  - done.
  - fold (total_in c s1) (total_in c s2). by rewrite IH.
  - fold (total_in c s). repeat case_decide; lia.
  - congruence.
Qed.

Lemma add_sales_perm sales1 sales2 t :
  sales1 ≡ₚ sales2 → add_sales sales1 t = add_sales sales2 t.
Proof.
  intros Hperm. apply map_eq. intros k. rewrite !add_sales_lookup.
  rewrite (total_in_perm k sales1 sales2 Hperm).
  destruct (decide (k ∈ sales1.*1)) as [Hin|Hin];
    destruct (decide (k ∈ sales2.*1)) as [Hin'|Hin']; try done.
  - destruct Hin'. by rewrite <- Hperm.
  - destruct Hin. by rewrite Hperm.
Qed.

(** Each accepted row adds at most one key to the totals, and at least the
    first one adds one. *)
Lemma scan_size reader :
  ∀ t c cp,
    0 ≤ c → c + Z.of_nat (length reader) ≤ GoInt.max_int →
    let s := scan reader t c cp in
    c ≤ accepted s ≤ c + Z.of_nat (length reader) ∧
    Z.of_nat (size (totals s)) ≤ Z.of_nat (size t) + (accepted s - c) ∧
    (c < accepted s ∨ t ≠ ∅ → totals s ≠ ∅).
Proof.
  induction reader as [|l reader IH]; intros t c cp Hc Hmax; cbn zeta.
  { cbn. split; [lia|]. split; [lia|]. intros [?|?]; [lia|done]. }
  change (length (l :: reader)) with (S (length reader)) in *.
  rewrite Nat2Z.inj_succ in *.
  assert (∀ msg,
    let s := {| totals := t; accepted := c; checkpoint := cp; failure := msg |} in
    c ≤ accepted s ≤ c + Z.succ (Z.of_nat (length reader)) ∧
    Z.of_nat (size (totals s)) ≤ Z.of_nat (size t) + (accepted s - c) ∧
    (c < accepted s ∨ t ≠ ∅ → totals s ≠ ∅)) as Hstop.
  { intros msg. cbn. split; [lia|]. split; [lia|]. intros [?|?]; [lia|done]. }
  destruct l as [n [|a [|b [|d [|? ?]]]]|]; cbn; try exact (Hstop None).
  destruct (strconv.Atoi d) as [v|].
  - rewrite add_one by lia.
    destruct (IH (add_sale a v t) (c + 1)
                (if bool_decide (GoInt.rem (c + 1) batchSize = 0) then c + 1 else cp))
      as (Hacc & Hsize & Hne); [lia..|].
    split; [lia|]. split.
    + assert (Z.of_nat (size (add_sale a v t)) ≤ Z.of_nat (size t) + 1) as Hins.
      { unfold add_sale. rewrite map_size_insert. destruct (t !! a); cbn; lia. }
      lia.
    + intros _. apply Hne. right. unfold add_sale. apply insert_non_empty.
  - destruct (IH t c cp) as (Hacc & Hsize & Hne); [lia..|].
    split; [lia|]. split; [lia|]. intros [?|?]; apply Hne; [left; lia|by right].
Qed.

(** ** More about one job, run without interruption *)

Section one_job_more.
Context `{Runtime}.
Variable p : CSVProcessor.

Lemma processed_frame σ jobID filePath l r :
  ∃ r' files' times',
    processed p jobID filePath σ l r = at_job σ l r' files' times' unlocked ∧
    JobID r' = JobID r ∧
    ∀ path, path ≠ filePath → path ≠ outputPath p jobID →
            files' !! path = fs σ !! path.
Proof.
  unfold processed. cbn zeta.
  repeat case_match;
    eexists _, _, _; (split; [reflexivity|]); (split; [done|]);
    intros path Hp1 Hp2; try done.
  by rewrite lookup_delete_ne, lookup_insert_ne by done.
Qed.

(** X5: a run of [processCSVFile] for a registered job returns, whatever the
    input file holds or lacks (it neither panics nor blocks), with the lock
    released.  It replaces the record of its own job, whose [JobID] stays,
    and leaves alone the registry, the records of all other jobs and every
    file other than its input and its own result file. *)
Theorem X5_processCSVFile_frame σ jobID filePath l r :
  registered σ jobID l r →
  ∃ σ' r',
    exec (processCSVFile p jobID filePath) σ = Ok tt σ' ∧
    jobsMutex σ' = unlocked ∧
    jobs σ' = jobs σ ∧
    heap σ' = <[l := r']> (heap σ) ∧ JobID r' = JobID r ∧
    (∀ path, path ≠ filePath → path ≠ outputPath p jobID →
             fs σ' !! path = fs σ !! path) ∧
    denied σ' = denied σ ∧ uuids σ' = uuids σ ∧ issued σ' = issued σ.
Proof.
  intros (Hm & Hj & Hl).
  rewrite (exec_processCSVFile p jobID filePath σ l r Hm Hj Hl).
  destruct (processed_frame σ jobID filePath l r) as (r' & files' & times' & -> & Hid & Hfs).
  by exists (at_job σ l r' files' times' unlocked), r'.
Qed.

(** X6: the first data row whose field count is not three, after rows of
    three fields, ends the run: the job is failed with the message
    "Error reading CSV: record on line N: wrong number of fields", N being
    the line of that row, and the record left behind is the same whatever
    follows the row in the file: the rest of the input is never read. *)
Theorem X6_first_bad_row_reported σ jobID filePath l r header pre n fields :
  registered σ jobID l r →
  three_fields header →
  Forall three_fields pre →
  length fields ≠ 3%nat →
  ∃ r',
    Status r' = "error" ∧
    Error r' = "Error reading CSV: record on line " +:+ strconv.Itoa n
               +:+ ": wrong number of fields" ∧
    ∀ post,
      let σ0 :=
        set_fs <[filePath := Upload (header :: pre ++ csv.Fields n fields :: post)]> σ in
      exec (processCSVFile p jobID filePath) σ0
      = Ok tt (set_clock (tail (clock σ)) (set_heap <[l := r']> σ0)).
Proof.
  intros (Hm & Hj & Hl) (hn & a & b & d & ->) Hpre Hlen.
  set (s := scan pre ∅ 0 (TotalRecords r)).
  exists (failed ("Error reading CSV: " +:+ csv.ErrFieldCount n)
            (assign (SetTotalRecords (checkpoint s)) r)).
  split; [done|]. split; [done|]. intros post σ0.
  rewrite (exec_processCSVFile p jobID filePath σ0 l r) by done.
  unfold processed. subst σ0. cbn. rewrite lookup_insert_eq. cbn.
  rewrite (scan_app pre _ Hpre), scan_misshapen by done. cbn. fold s.
  destruct σ; cbn in *. by subst.
Qed.


Lemma exec_read_loop_absent jobID reader :
  ∀ σ t c,
    jobsMutex σ = unlocked → jobs σ !! jobID = None →
    exec (read_loop jobID reader t c) σ
    = Ok (match failure (scan reader t c 0) with
          | None => Some (totals (scan reader t c 0), accepted (scan reader t c 0))
          | Some _ => None
          end) σ.
Proof.
  induction reader as [|ln reader IH]; intros σ t c Hm Hj; [done|].
  destruct ln as [n fields|msg]; cbn.
  - destruct fields as [|department [|date [|field [|extra fields]]]]; cbn;
      try (rewrite exec_bind, exec_updateJobError_absent by done; done).
    run. destruct (strconv.Atoi field) as [sales|]; [|by apply IH].
    run. fold (add_sale department sales t).
    assert (∀ cp cp', 
      match failure (scan reader (add_sale department sales t) (GoInt.add c 1) cp) with
      | None => Some (totals (scan reader (add_sale department sales t) (GoInt.add c 1) cp),
                      accepted (scan reader (add_sale department sales t) (GoInt.add c 1) cp))
      | Some _ => None
      end
      = match failure (scan reader (add_sale department sales t) (GoInt.add c 1) cp') with
      | None => Some (totals (scan reader (add_sale department sales t) (GoInt.add c 1) cp'),
                      accepted (scan reader (add_sale department sales t) (GoInt.add c 1) cp'))
      | Some _ => None
      end) as Hcp.
    { generalize (add_sale department sales t) (GoInt.add c 1). clear.
      induction reader as [|ln reader IH]; intros t c cp cp'; [done|].
      destruct ln as [n [|a [|b [|d [|? ?]]]]|]; cbn; try done.
      destruct (strconv.Atoi d); [apply IH|apply IH]. }
    case_bool_decide.
    + rewrite exec_updateJobProgress_absent by done. cbn.
      rewrite IH by done. f_equal. apply Hcp.
    + run. by rewrite IH by done.
  - by rewrite exec_bind, exec_updateJobError_absent by done.
Qed.


(** X9: the counts of a completed job.  For an input of fewer than 2^63
    records, a job that ends "completed" reports a category count between
    zero and its record count, a record count below the number of records
    of the file (the header is not counted), and a category count of zero
    exactly when no record was accepted. *)
Theorem X9_counts_of_completed_job σ jobID filePath l r f :
  registered σ jobID l r →
  fs σ !! filePath = Some f →
  Z.of_nat (length (tokens f)) ≤ GoInt.max_int →
  ∃ σ' r',
    exec (processCSVFile p jobID filePath) σ = Ok tt σ' ∧
    heap σ' !! l = Some r' ∧
    (Status r' = "completed" →
     0 ≤ DepartmentCount r' ≤ TotalRecords r' ∧
     TotalRecords r' < Z.of_nat (length (tokens f)) ∧
     (DepartmentCount r' = 0 ↔ TotalRecords r' = 0)).
Proof.
  intros (Hm & Hj & Hl) Hfs Hlen.
  rewrite (exec_processCSVFile p jobID filePath σ l r Hm Hj Hl).
  unfold processed. rewrite Hfs. cbn zeta.
  destruct (tokens f) as [|header reader];
    [eexists _, _; split; [reflexivity|]; split; [apply lookup_insert_eq|done]|].
  destruct (csv.check 3 header);
    [eexists _, _; split; [reflexivity|]; split; [apply lookup_insert_eq|done]|].
  destruct (failure _);
    [eexists _, _; split; [reflexivity|]; split; [apply lookup_insert_eq|done]|].
  destruct (denied σ !! _);
    [eexists _, _; split; [reflexivity|]; split; [apply lookup_insert_eq|done]|].
  eexists _, _; split; [reflexivity|]; split; [apply lookup_insert_eq|].
  intros _. rewrite completed_fields. cbn [DepartmentCount TotalRecords].
  change (length (header :: reader)) with (S (length reader)) in Hlen.
  change (length (header :: reader)) with (S (length reader)).
  rewrite Nat2Z.inj_succ in *.
  destruct (scan_size reader ∅ 0 (TotalRecords r)) as (Hacc & Hsize & Hne);
    [lia..|].
  rewrite map_size_empty in Hsize.
  split; [lia|]. split; [lia|]. split.
  - intros Hzero. destruct (decide (0 < accepted (scan reader ∅ 0 (TotalRecords r))))
      as [Hpos|]; [|lia].
    apply map_size_non_empty_iff in Hne; [lia|by left].
  - lia.
Qed.


(** X11: the input of a completed job is gone, so a second run over the
    same path fails at [os.Open], for whichever registered job it is made
    (a later submission of the same path, or the same job again): that job
    ends "error" with the open failure as its message. *)
Theorem X11_second_run_fails_to_open σ jobID filePath l r σ1 r1 jobID2 l2 r2 :
  registered σ jobID l r →
  exec (processCSVFile p jobID filePath) σ = Ok tt σ1 →
  heap σ1 !! l = Some r1 →
  Status r1 = "completed" →
  registered σ1 jobID2 l2 r2 →
  ∃ σ2 r2',
    exec (processCSVFile p jobID2 filePath) σ1 = Ok tt σ2 ∧
    heap σ2 !! l2 = Some r2' ∧
    Status r2' = "error" ∧
    Error r2' = "Failed to open file: open " +:+ filePath
                +:+ ": no such file or directory" ∧
    fs σ2 = fs σ1.
Proof.
  intros (Hm & Hj & Hl) Hrun Hl1 Hst (Hm2 & Hj2 & Hl2).
  rewrite (exec_processCSVFile p jobID filePath σ l r Hm Hj Hl) in Hrun.
  injection Hrun as <-.
  destruct (processed_dichotomy p σ jobID filePath l r)
    as (r' & Hl' & _ & [[_ Hgone]|[Herr _]]).
  2:{ rewrite Hl1 in Hl'. injection Hl' as ->. by rewrite Hst in Herr. }
  rewrite (exec_processCSVFile p jobID2 filePath _ l2 r2 Hm2 Hj2 Hl2).
  unfold processed at 1. rewrite Hgone.
  eexists _, _. split; [reflexivity|]. by split; [apply lookup_insert_eq|].
Qed.

(** X12: a result artifact is not an input.  Its header row has two
    fields, so a run over a file written by [writeResultCSV] fails at the
    header: "error", with the field-count message for line 1, and the file
    stays. *)
Theorem X12_artifact_rejected_as_input σ jobID filePath l r t :
  registered σ jobID l r →
  fs σ !! filePath = Some (artifact t) →
  ∃ σ' r',
    exec (processCSVFile p jobID filePath) σ = Ok tt σ' ∧
    heap σ' !! l = Some r' ∧
    Status r' = "error" ∧
    Error r' = "Failed to read header: record on line 1: wrong number of fields" ∧
    fs σ' = fs σ.
Proof.
  intros (Hm & Hj & Hl) Hfs.
  rewrite (exec_processCSVFile p jobID filePath σ l r Hm Hj Hl).
  unfold processed. rewrite Hfs. cbn.
  eexists _, _. split; [reflexivity|]. by split; [apply lookup_insert_eq|].
Qed.


End one_job_more.

(** ** The lock discipline of the interleaved system *)

Lemma holders_app m l1 l2 : holders m (l1 ++ l2) = (holders m l1 + holders m l2)%nat.
Proof. induction l1 as [|x l1 IH]; cbn; [done|]. rewrite IH. lia. Qed.

Lemma holders_insert m l : ∀ i x y,
  l !! i = Some x →
  (holders m (<[i := y]> l) + (if decide (x = m) then 1 else 0)
   = holders m l + (if decide (y = m) then 1 else 0))%nat.
Proof.
  induction l as [|z l IH]; intros [|i] x y Hi; try done.
  - injection Hi as ->. change (<[0%nat := y]> (x :: l)) with (y :: l).
    cbn [holders]. destruct (decide (x = m)), (decide (y = m)); lia.
  - change (<[S i := y]> (z :: l)) with (z :: <[i := y]> l).
    cbn [holders]. specialize (IH i x y Hi).
    destruct (decide (z = m)), (decide (x = m)), (decide (y = m)); lia.
Qed.

Lemma holders_pos m l : (0 < holders m l)%nat → ∃ i, l !! i = Some m.
Proof.
  induction l as [|x l IH]; cbn; [lia|].
  destruct (decide (x = m)) as [->|Hne].
  - intros _. by exists 0%nat.
  - intros Hc. destruct IH as [i Hi]; [lia|]. by exists (S i).
Qed.

Lemma holders_one m l i : l !! i = Some m → (1 ≤ holders m l)%nat.
Proof.
  revert i. induction l as [|x l IH]; intros [|i] Hi; try done; cbn in *.
  - injection Hi as ->. rewrite decide_True by done. lia.
  - specialize (IH i Hi). lia.
Qed.

Lemma holders_two m l i j :
  l !! i = Some m → l !! j = Some m → i ≠ j → (2 ≤ holders m l)%nat.
Proof.
  revert i j. induction l as [|x l IH]; intros [|i] [|j] Hi Hj Hne;
    try done; cbn in *.
  - injection Hi as ->. rewrite decide_True by done.
    pose proof (holders_one m l j Hj). lia.
  - injection Hj as ->. rewrite decide_True by done.
    pose proof (holders_one m l i Hi). lia.
  - assert (i ≠ j) by congruence. specialize (IH i j Hi Hj). lia.
Qed.

Lemma JobID_assign w r : JobID (assign w r) = JobID r.
Proof. by destruct w. Qed.

Lemma action_safe_mono J J' L L' m a :
  J ⊆ J' → L ⊆ L' → action_safe J L m a → action_safe J' L' m a.
Proof.
  intros HJ HL. destruct a; cbn; try done.
  - intros [? ?]. split; [done|]. by eapply lookup_weaken.
  - intros [? [x ?]]. split; [done|]. exists x. by eapply lookup_weaken.
  - intros [? [x ?]]. split; [done|]. exists x. by eapply lookup_weaken.
  - intros [? ?]. split; [done|]. by apply HJ.
Qed.

Lemma wp_mono {A} (q : prog A) Q J J' L L' m :
  (∀ a J1 J2 L1 L2 m', J1 ⊆ J2 → L1 ⊆ L2 → Q a J1 L1 m' → Q a J2 L2 m') →
  J ⊆ J' → L ⊆ L' → wp q Q J L m → wp q Q J' L' m.
Proof.
  intros HQ HJ HL. destruct q as [a| |a k]; cbn; [by apply HQ|done|].
  intros [Ha Hk]. split; [by eapply action_safe_mono|].
  intros r J1 L1 HJ1 HL1. apply Hk; by etrans.
Qed.

Lemma safe_mono q J J' L L' m :
  J ⊆ J' → L ⊆ L' → safe q J L m → safe q J' L' m.
Proof. apply wp_mono. done. Qed.

Lemma wp_bind {A B} (q : prog A) (f : A → prog B) Q :
  ∀ J L m,
    wp q (λ a J' L' m', wp (f a) Q J' L' m') J L m → wp (q ≫= f) Q J L m.
Proof.
  induction q as [a| |a k IH]; intros J L m; [done..|].
  intros [Ha Hk]. split; [done|].
  intros r J' L' HJ HL Hr. apply IH. by apply Hk.
Qed.

(** One action, then the rest. *)
Lemma wp_act_bind {B} a (f : resp a → prog B) Q J L m :
  action_safe J L m a →
  (∀ r J' L', J ⊆ J' → L ⊆ L' → resp_ok a r J' L' →
              wp (f r) Q (jobs_after a J') (records_after a r L') (mode_after a m)) →
  wp (act a ≫= f) Q J L m.
Proof. intros Ha Hk. by split. Qed.

Lemma wp_act a Q J L m :
  action_safe J L m a →
  (∀ r J' L', J ⊆ J' → L ⊆ L' → resp_ok a r J' L' →
              Q r (jobs_after a J') (records_after a r L') (mode_after a m)) →
  wp (act a) Q J L m.
Proof. intros Ha Hk. by split. Qed.

(** What is known of the registry stays known as it grows. *)
Ltac wp_facts HJ HL :=
  repeat match goal with
  | H : ?x ∈ ?J |- _ =>
      match type of HJ with J ⊆ _ => apply (proj1 (elem_of_subseteq _ _) HJ) in H end
  | H : ?L !! ?l = Some ?j |- _ =>
      match type of HL with L ⊆ _ => eapply lookup_weaken in H; [|exact HL] end
  end.

(** Transitivity along the inclusions at hand. *)
Ltac grown :=
  repeat first [ eassumption | reflexivity | (etrans; [|eassumption]) ].

Ltac wp_side :=
  cbn; repeat split; try done; try (by eexists); try (by intros [=]);
  try (by (eapply lookup_weaken; [eassumption|grown]));
  try (by (eexists; eapply lookup_weaken; [eassumption|grown])).

Ltac wp_step :=
  let HJ := fresh "HJ" in
  let HL := fresh "HL" in
  first [apply wp_act_bind | apply wp_act];
  [ wp_side
  | intros ? ? ? HJ HL ?;
    cbn [jobs_after records_after mode_after resp_ok resp] in *;
    repeat match goal with r : () |- _ => destruct r end;
    wp_facts HJ HL ].

Ltac wp_ret := unfold mret, prog_ret; cbn [wp].

Ltac wp_found l :=
  match goal with r : option loc |- _ => destruct r as [l|] end.

Lemma wp_updateJobError jobID msg Q J L :
  (∀ J' L', J ⊆ J' → L ⊆ L' → Q tt J' L' Free) →
  wp (updateJobError jobID msg) Q J L Free.
Proof.
  intros HQ. unfold updateJobError.
  wp_step. wp_step. apply wp_bind. wp_found l.
  - wp_step. wp_step. wp_step. apply HQ; grown.
  - wp_ret. wp_step. apply HQ; grown.
Qed.

Lemma wp_updateJobProgress jobID n Q J L :
  (∀ J' L', J ⊆ J' → L ⊆ L' → Q tt J' L' Free) →
  wp (updateJobProgress jobID n) Q J L Free.
Proof.
  intros HQ. unfold updateJobProgress.
  wp_step. wp_step. apply wp_bind. wp_found l.
  - wp_step. wp_step. apply HQ; grown.
  - wp_ret. wp_step. apply HQ; grown.
Qed.

Lemma safe_query jobID J L : safe (query jobID) J L Free.
Proof.
  unfold safe, query, GetJobStatus.
  apply wp_bind. wp_step. wp_step. wp_step. wp_ret. cbn beta iota.
  wp_found l; [|by wp_ret].
  wp_step. by wp_ret.
Qed.

Lemma safe_submit filePath J L : safe (submit filePath) J L Free.
Proof.
  unfold safe, submit, ProcessCSVAsync. apply wp_bind.
  wp_step. wp_step. cbn [JobID new_job] in *.
  match goal with
  | |- context [<[?l := ?u]> ?L0] =>
      assert ((<[l := u]> L0) !! l = Some u) by apply lookup_insert_eq;
      set (L1 := <[l := u]> L0) in *; clearbody L1
  end.
  wp_step. wp_step.
  match goal with
  | |- context [{[?u]} ∪ ?J0] =>
      assert (u ∈ ({[u]} ∪ J0 : gset string)) by set_solver;
      set (J1 := {[u]} ∪ J0) in *; clearbody J1
  end.
  wp_step. wp_step. by wp_ret.
Qed.

Section discipline.
Context `{Runtime}.
Variable p : CSVProcessor.

Lemma wp_write_records out entries Q :
  ∀ J L,
    (∀ J' L', J ⊆ J' → L ⊆ L' → Q None J' L' Free) →
    wp (write_records out entries) Q J L Free.
Proof.
  induction entries as [|[department total] entries IH]; intros J L HQ;
    cbn [write_records].
  - wp_ret. by apply HQ.
  - wp_step. apply IH. intros J2 L2 ? ?. apply HQ; grown.
Qed.

Lemma wp_writeResultCSV out t Q J L :
  (∀ e J' L', J ⊆ J' → L ⊆ L' → Q e J' L' Free) →
  wp (writeResultCSV out t) Q J L Free.
Proof.
  intros HQ. unfold writeResultCSV. wp_step.
  match goal with r : option string |- _ => destruct r as [e|] end.
  - wp_ret. apply HQ; grown.
  - wp_step. apply wp_write_records. intros J2 L2 ? ?. apply HQ; grown.
Qed.

Lemma check_three l record :
  csv.check 3 l = inr record → ∃ a b d, record = [a; b; d].
Proof.
  destruct l as [n fields|msg]; cbn; [|done].
  destruct (length fields =? 3)%nat eqn:Hlen; [|done].
  intros [= <-]. apply Nat.eqb_eq in Hlen.
  destruct fields as [|a [|b [|d [|? ?]]]]; try done. by exists a, b, d.
Qed.

Lemma wp_read_loop jobID reader :
  ∀ t c Q J L,
    (∀ res J' L', J ⊆ J' → L ⊆ L' → Q res J' L' Free) →
    wp (read_loop jobID reader t c) Q J L Free.
Proof.
  induction reader as [|l reader IH]; intros t c Q J L HQ; cbn [read_loop].
  { wp_ret. by apply HQ. }
  destruct (csv.check 3 l) as [err|record] eqn:Hc.
  - apply wp_bind, wp_updateJobError. intros J1 L1 ? ?. wp_ret. apply HQ; grown.
  - destruct (check_three l record Hc) as (a & b & d & ->).
    apply wp_bind. change (index [a; b; d] 2) with (Ret d : prog string). wp_ret.
    destruct (strconv.Atoi d) as [sales|]; [|by apply IH].
    apply wp_bind. change (index [a; b; d] 0) with (Ret a : prog string). wp_ret.
    cbn zeta. apply wp_bind. case_bool_decide.
    + apply wp_updateJobProgress. intros J1 L1 ? ?. apply IH.
      intros res J2 L2 ? ?. apply HQ; grown.
    + wp_ret. by apply IH.
Qed.

(** The worker of a registered job keeps the discipline: the pointer it
    looked up at the start is not nil, and [record[2]] is within bounds
    because the reader hands out records of three fields only. *)
Lemma safe_processCSVFile jobID filePath J L :
  jobID ∈ J → safe (processCSVFile p jobID filePath) J L Free.
Proof.
  intros Hin. unfold safe, processCSVFile.
  wp_step. wp_step. wp_step. wp_found l; [|done].
  wp_step. wp_step.
  match goal with r : (string + list csv.line)%type |- _ =>
    destruct r as [err|[|header reader]] end;
    cbn [csv.Read]; try by apply wp_updateJobError.
  destruct (csv.check 3 header); cbn beta iota;
    [by apply wp_updateJobError|].
  apply wp_bind, wp_read_loop. intros [[t c]|] J1 L1 ? ?; [|by wp_ret].
  cbn zeta. apply wp_bind, wp_writeResultCSV.
  intros [e|] J2 L2 ? ?; [by apply wp_updateJobError|].
  wp_step. cbn zeta. wp_step. apply wp_bind.
  wp_step. wp_step. wp_step. wp_step. wp_step. wp_step. wp_step. done.
Qed.

Lemma safe_spawned a J L m :
  action_safe J L m a → Forall (λ q, safe q J L Free) (spawned p a).
Proof.
  destruct a; cbn; try by constructor.
  intros [_ Hin]. constructor; [by apply safe_processCSVFile|constructor].
Qed.

End discipline.

Lemma perform_coherent a σ r σ' m :
  perform a σ = Ok r σ' →
  action_safe (dom (jobs σ)) (owners σ) m a →
  registry_ok σ →
  resp_ok a r (dom (jobs σ)) (owners σ) ∧
  dom (jobs σ') = jobs_after a (dom (jobs σ)) ∧
  owners σ' = records_after a r (owners σ) ∧
  registry_ok σ'.
Proof.
  intros Hp Ha Hreg. unfold registry_ok, owners in *.
  destruct a; cbn in Hp;
    repeat match type of Hp with
           | context [match ?x with _ => _ end] => destruct x eqn:?
           end;
    try discriminate; injection Hp as <- <-; cbn; try done.
  - (* JobsLoad *)
    split; [|done]. destruct (jobs σ !! jobID) as [l|] eqn:Hj.
    + by apply Hreg.
    + by apply not_elem_of_dom.
  - (* JobsStore *)
    destruct Ha as [_ Hl]. split; [done|]. split; [apply dom_insert_L|].
    split; [done|]. intros j l0.
    destruct (decide (jobID = j)) as [<-|Hne].
    + rewrite lookup_insert_eq. by intros [= <-].
    + rewrite lookup_insert_ne by done. apply Hreg.
  - (* New *)
    assert ((JobID <$> heap σ) !! fresh (dom (heap σ)) = None) as Hfresh.
    { rewrite lookup_fmap. rewrite (proj1 (not_elem_of_dom _ _)); [done|].
      apply is_fresh. }
    split; [done|]. split; [done|]. split; [apply fmap_insert|].
    intros j l0 Hj. rewrite fmap_insert. rewrite lookup_insert_ne; [by apply Hreg|].
    intros <-. apply Hreg in Hj. by rewrite Hfresh in Hj.
  - (* Assign *)
    assert (JobID <$> <[l := assign w p]> (heap σ) = JobID <$> heap σ) as Heq.
    { rewrite fmap_insert, JobID_assign. apply insert_id.
      rewrite lookup_fmap. by rewrite Heqo. }
    split; [done|]. split; [done|]. split; [done|]. by rewrite Heq.
Qed.

Ltac decide_modes :=
  repeat match goal with
         | H : context [decide (?a = ?b)] |- _ =>
             destruct (decide (a = b)); try discriminate; try congruence
         end.

Lemma perform_held a σ r σ' J L modes i m :
  perform a σ = Ok r σ' →
  modes !! i = Some m →
  action_safe J L m a →
  held (jobsMutex σ) modes →
  held (jobsMutex σ') (<[i := mode_after a m]> modes).
Proof.
  intros Hp Hi Ha (Hr & Hw & Hwr).
  pose proof (holders_insert Reading modes i m (mode_after a m) Hi) as HR.
  pose proof (holders_insert Writing modes i m (mode_after a m) Hi) as HW.
  unfold held.
  destruct a; cbn in Hp, Ha;
    repeat match type of Hp with
           | context [match ?x with _ => _ end] => destruct x eqn:?
           end;
    try discriminate; injection Hp as <- <-; cbn [jobsMutex set_mutex set_jobs
      set_heap set_fs set_clock draw_uuid mode_after writer readers] in *;
    try (rewrite list_insert_id by done; done).
  - (* Lock *)
    subst m. decide_modes. split; [lia|]. split; [lia|done].
  - (* Unlock *)
    subst m. decide_modes. split; [lia|]. split; [lia|done].
  - (* RLock *)
    subst m. decide_modes. split; [lia|]. split; [lia|done].
  - (* RUnlock *)
    subst m. decide_modes.
    destruct (writer (jobsMutex σ)) eqn:Hwriter; [by specialize (Hwr eq_refl)|].
    split; [lia|]. split; [lia|done].
Qed.

Lemma held_spawn mu modes n : held mu modes → held mu (modes ++ replicate n Free)%list.
Proof.
  assert (∀ m, m ≠ Free → holders m (replicate n Free) = 0%nat) as Hz.
  { intros m Hm. induction n as [|n IH]; cbn; [done|].
    rewrite decide_False by done. done. }
  intros (Hr & Hw & Hwr). unfold held. rewrite !holders_app, !Hz by done.
  split; [lia|]. split; [lia|done].
Qed.

Section coherence.
Context `{Runtime}.
Variable p : CSVProcessor.

Lemma step_coherent c c' : step p c c' → coherent c → coherent c'.
Proof.
  intros Hstep (modes & Hpool & Hheld & Hreg).
  destruct Hstep as [c i a k r σ' Hi Hp|c filePath|c jobID|c σ' Hsame].
  - destruct (Forall2_lookup_l _ _ _ _ _ Hpool Hi) as (m & Hm & [Ha Hk]).
    destruct (perform_coherent a (shared c) r σ' m Hp Ha Hreg)
      as (Hr & HJ & HL & Hreg').
    assert (dom (jobs (shared c)) ⊆ dom (jobs σ')) as HJsub.
    { rewrite HJ. destruct a; cbn; try done. apply union_subseteq_r. }
    assert (owners (shared c) ⊆ owners σ') as HLsub.
    { rewrite HL. destruct a; cbn; try done. by apply insert_subseteq. }
    exists (<[i := mode_after a m]> modes ++ replicate (length (spawned p a)) Free)%list.
    split; [|split]; cbn.
    + apply Forall2_app.
      * apply Forall2_insert.
        -- eapply Forall2_impl; [done|]. intros q m' Hq. by eapply safe_mono.
        -- unfold safe. rewrite HJ, HL. by apply Hk.
      * assert (Forall (λ q, safe q (dom (jobs σ')) (owners σ') Free) (spawned p a))
          as Hsp.
        { eapply safe_spawned, action_safe_mono; done. }
        clear -Hsp. induction Hsp; cbn; by constructor.
    + apply held_spawn. by eapply perform_held.
    + done.
  - exists (modes ++ [Free])%list. split; [|split]; cbn; [|by apply (held_spawn _ _ 1)|done].
    apply Forall2_app; [done|]. constructor; [apply safe_submit|constructor].
  - exists (modes ++ [Free])%list. split; [|split]; cbn; [|by apply (held_spawn _ _ 1)|done].
    apply Forall2_app; [done|]. constructor; [apply safe_query|constructor].
  - destruct Hsame as (Hj & Hmu & Hh & _). exists modes. unfold registry_ok, owners in *.
    cbn. rewrite Hj, Hmu, Hh. done.
Qed.

Lemma reachable_coherent c : reachable p c → coherent c.
Proof.
  intros (files & refused & ids & times & Hrtc).
  eapply (rtc_ind_r coherent); [| |exact Hrtc].
  - exists []. split; [constructor|]. split; [done|]. intros j l. cbn.
    by rewrite lookup_empty.
  - intros c1 c2 _ Hstep Hc. by eapply step_coherent.
Qed.

End coherence.

Lemma perform_grows a σ r σ' :
  perform a σ = Ok r σ' →
  (∀ jobID, is_Some (jobs σ !! jobID) → is_Some (jobs σ' !! jobID)) ∧
  (∀ l, is_Some (heap σ !! l) → is_Some (heap σ' !! l)).
Proof.
  intros Hp.
  destruct a; cbn in Hp;
    repeat match type of Hp with
           | context [match ?x with _ => _ end] => destruct x eqn:?
           end;
    try discriminate; injection Hp as <- <-; cbn; try done.
  - split; [|done]. intros j. rewrite lookup_insert_is_Some'. auto.
  - split; [done|]. intros l. rewrite lookup_insert_is_Some'. auto.
  - split; [done|]. intros l0. rewrite lookup_insert_is_Some'. auto.
Qed.

Ltac decide_modes_goal :=
  repeat match goal with
         | |- context [decide (?a = ?b)] =>
             destruct (decide (a = b)); try discriminate; try congruence
         end.

Section discipline_theorems.
Context `{Runtime}.
Variable p : CSVProcessor.

(** X14: no goroutine of the system panics.  In every reachable
    configuration no goroutine is at a panic (the nil pointer of
    [processCSVFile], an index out of range), and the next action of every
    goroutine can be performed without a run-time error: only held locks
    are released and only allocated records are read or written.  (A
    goroutine may have to wait for the lock; the id generator running dry
    is the environment's affair.) *)
Theorem X14_no_goroutine_panics c i q :
  reachable p c →
  pool c !! i = Some q →
  q ≠ Panic ∧
  ∀ a k, q = Vis a k → a ≠ uuid_New → perform a (shared c) ≠ Fault.
Proof.
  intros Hreach Hi.
  destruct (reachable_coherent p c Hreach) as (modes & Hpool & (Hr & Hw & Hwr) & Hreg).
  destruct (Forall2_lookup_l _ _ _ _ _ Hpool Hi) as (m & Hm & Hq).
  split; [by intros ->|].
  intros a k -> Hne. destruct Hq as [Ha _].
  destruct a; cbn in Ha |- *; try done.
  - by destruct (writer _), (readers _).
  - subst m. pose proof (holders_one _ _ _ Hm) as Hone.
    destruct (writer _); [done|lia].
  - by destruct (writer _).
  - subst m. pose proof (holders_one _ _ _ Hm) as Hone.
    destruct (readers _); [lia|done].
  - destruct Ha as [_ [j Hl]]. unfold owners in Hl.
    apply lookup_fmap_Some in Hl as (r & _ & ->). done.
  - destruct Ha as [_ [j Hl]]. unfold owners in Hl.
    apply lookup_fmap_Some in Hl as (r & _ & ->). done.
  - by destruct (fs _ !! _).
  - by destruct (denied _ !! _).
Qed.

(** X15: writes are exclusive.  In every reachable configuration, when a
    goroutine is about to write the registry map or a field of a job
    record, no other goroutine is about to read or write the registry map
    or to write a record. *)
Theorem X15_writes_are_exclusive c i j a k b k' :
  reachable p c →
  i ≠ j →
  pool c !! i = Some (Vis a k) →
  pool c !! j = Some (Vis b k') →
  writes a →
  ¬ accesses b.
Proof.
  intros Hreach Hne Hi Hj Hwa Hab.
  destruct (reachable_coherent p c Hreach) as (modes & Hpool & (Hr & Hw & Hwr) & Hreg).
  destruct (Forall2_lookup_l _ _ _ _ _ Hpool Hi) as (mi & Hmi & [Ha _]).
  destruct (Forall2_lookup_l _ _ _ _ _ Hpool Hj) as (mj & Hmj & [Hb _]).
  assert (mi = Writing) as -> by (destruct a; cbn in Ha, Hwa; by try destruct Ha).
  assert (mj ≠ Free) as Hmode by (destruct b; cbn in Hb, Hab; try done; by destruct Hb as [-> _]).
  pose proof (holders_one _ _ _ Hmi) as Hone.
  destruct (writer _); [|lia].
  destruct mj; [done| |].
  - pose proof (holders_two _ _ _ _ Hmi Hmj Hne). lia.
  - pose proof (holders_one _ _ _ Hmj). specialize (Hwr eq_refl). lia.
Qed.

(** X16: the mutex counts the critical sections.  In every reachable
    configuration the number of holders the mutex records (its readers,
    plus one when it is write-locked) is the number of goroutines whose
    next action lies between a lock and its release (a registry or record
    access, or the release itself), and each of those actions can be
    performed at once.  So a held lock is always about to be used or
    released; no goroutine ends, panics, waits for the lock again or does
    file I/O while it holds the lock; and when no goroutine is inside a
    critical section the mutex is free. *)
Theorem X16_mutex_counts_critical_sections c :
  reachable p c →
  (readers (jobsMutex (shared c))
   + (if writer (jobsMutex (shared c)) then 1 else 0))%nat = busy (pool c) ∧
  ∀ i a k,
    pool c !! i = Some (Vis a k) → critical a = true →
    ∃ r σ', perform a (shared c) = Ok r σ'.
Proof.
  intros Hreach.
  destruct (reachable_coherent p c Hreach) as (modes & Hpool & (Hr & Hw & Hwr) & Hreg).
  split.
  - rewrite Hr, <- Hw. unfold busy. clear -Hpool.
    induction Hpool as [|q m pl ms Hq _ IH]; [done|].
    rewrite filter_cons. cbn [holders].
    assert (in_critical_section q = true ↔ m ≠ Free) as Hiff.
    { destruct q as [[]| |a k]; [by rewrite Hq|done|]. destruct Hq as [Ha _].
      destruct a; cbn in Ha |- *; try (by rewrite Ha);
        try (destruct Ha as [-> _]; by split). by split. }
    destruct (decide (in_critical_section q = true)) as [Hc|Hc].
    + apply Hiff in Hc. cbn [length]. rewrite <- IH.
      destruct m; [done|..]; decide_modes_goal; lia.
    + assert (m = Free) as ->.
      { destruct m; [done|..]; destruct Hc; by apply Hiff. }
      rewrite <- IH. decide_modes_goal. lia.
  - intros i a k Hi Hc.
    destruct (Forall2_lookup_l _ _ _ _ _ Hpool Hi) as (m & Hm & [Ha _]).
    pose proof (holders_one _ _ _ Hm) as Hone.
    destruct a; try discriminate; cbn in Ha |- *.
    + (* Unlock *)
      subst m. destruct (writer _); [by eexists _, _|lia].
    + (* RUnlock *)
      subst m. destruct (readers _); [lia|by eexists _, _].
    + (* JobsLoad *)
      by eexists _, _.
    + (* JobsStore *)
      by eexists _, _.
    + (* Assign *)
      destruct Ha as [_ [j Hl]]. unfold owners in Hl.
      apply lookup_fmap_Some in Hl as (r & _ & ->). by eexists _, _.
Qed.

(** X17: the registry is consistent.  In every reachable configuration
    each registered id points to an allocated record, and that record's
    [JobID] is the id it is registered under. *)
Theorem X17_registry_points_to_own_record c jobID l :
  reachable p c →
  jobs (shared c) !! jobID = Some l →
  ∃ r, heap (shared c) !! l = Some r ∧ JobID r = jobID.
Proof.
  intros Hreach Hj.
  destruct (reachable_coherent p c Hreach) as (modes & _ & _ & Hreg).
  apply Hreg in Hj. unfold owners in Hj.
  apply lookup_fmap_Some in Hj as (r & Hid & Hl). by exists r.
Qed.


End discipline_theorems.

(** ** The benchmark's input *)

Arguments createBenchmarkCSV : simpl never.

Lemma bench_dept_lookup i : departments !! (i `mod` 5)%nat = Some (bench_dept i).
Proof.
  unfold bench_dept.
  destruct (departments !! (i `mod` 5)%nat) as [d|] eqn:Hd; [done|].
  apply lookup_ge_None in Hd. cbn in Hd.
  pose proof (Nat.mod_upper_bound i 5). lia.
Qed.

Lemma exec_benchmark_rows filename js mu hp den us ck iss n :
  ∀ k files records,
    Z.of_nat (k + n) ≤ GoInt.max_int →
    exec (benchmark_rows filename n (Z.of_nat k))
      {| jobs := js; jobsMutex := mu; heap := hp;
         fs := <[filename := Artifact records]> files;
         denied := den; uuids := us; clock := ck; issued := iss |}
    = Ok tt
        {| jobs := js; jobsMutex := mu; heap := hp;
           fs := <[filename := Artifact (records ++ (bench_row <$> seq k n))]> files;
           denied := den; uuids := us; clock := ck; issued := iss |}.
Proof.
  induction n as [|n IH]; intros k files records Hmax.
  { cbn. by rewrite app_nil_r. }
  cbn [benchmark_rows]. unfold GoInt.rem, GoInt.max_int in *.
  assert (Z.rem (Z.of_nat k) (Z.of_nat (length departments)) = Z.of_nat (k `mod` 5)) as ->.
  { rewrite Z.rem_mod_nonneg by (cbn; lia). by rewrite Nat2Z.inj_mod. }
  assert (GoInt.add (Z.rem (Z.of_nat k) 1000) 1 = bench_count k) as ->.
  { unfold bench_count. rewrite Z.rem_mod_nonneg by lia.
    rewrite Nat2Z.inj_mod. apply wrap_id.
    pose proof (Z.mod_pos_bound (Z.of_nat k) 1000).
    unfold GoInt.in_range, GoInt.min_int, GoInt.max_int. change (Z.of_nat 1000) with 1000. lia. }
  assert (GoInt.add (Z.of_nat k) 1 = Z.of_nat (S k)) as ->.
  { rewrite Nat2Z.inj_succ. apply wrap_id.
    unfold GoInt.in_range, GoInt.min_int, GoInt.max_int. lia. }
  unfold index_int. rewrite bool_decide_true by lia. rewrite Nat2Z.id.
  unfold index. rewrite bench_dept_lookup.
  run. unfold set_fs. cbn. rewrite alter_insert_eq. cbn.
  rewrite IH by lia. cbn [seq fmap list_fmap]. by rewrite <- app_assoc.
Qed.

Lemma exec_createBenchmarkCSV filename recordCount σ :
  denied σ !! filename = None →
  0 ≤ recordCount ≤ GoInt.max_int →
  exec (createBenchmarkCSV filename recordCount) σ
  = Ok None
      (set_fs <[filename :=
                  Artifact (["Department Name"; "Date"; "Number of Sales"]
                            :: (bench_row <$> seq 0 (Z.to_nat recordCount)))]> σ).
Proof.
  intros Hd Hn. destruct σ as [js mu hp files den us ck iss]; cbn in *.
  unfold createBenchmarkCSV. run. rewrite Hd. run. unfold set_fs. cbn.
  rewrite alter_insert_eq. cbn.
  rewrite (exec_benchmark_rows filename js mu hp den us ck iss _ 0%nat) by lia.
  done.
Qed.

Lemma bench_sales n :
  ∀ k (h : nat → Z),
    sales_of (imap (λ i r, csv.Fields (h i) r) (bench_row <$> seq k n))
    = (λ i, (bench_dept i, bench_count i)) <$> seq k n.
Proof.
  induction n as [|n IH]; intros k h; [done|].
  cbn [seq fmap list_fmap imap]. unfold sales_of. cbn [omap list_omap parsed bench_row].
  rewrite Atoi_Itoa.
  2:{ unfold bench_count, GoInt.in_range, GoInt.min_int, GoInt.max_int.
      pose proof (Nat.mod_upper_bound k 1000). lia. }
  cbn. f_equal. apply (IH (S k) (h ∘ S)).
Qed.

Lemma bench_three_fields n :
  ∀ k (h : nat → Z),
    Forall three_fields (imap (λ i r, csv.Fields (h i) r) (bench_row <$> seq k n)).
Proof.
  induction n as [|n IH]; intros k h; [constructor|].
  cbn [seq fmap list_fmap imap]. constructor; [by eexists _, _, _, _|].
  apply (IH (S k) (h ∘ S)).
Qed.

Lemma bench_categories n :
  length (remove_dups (bench_dept <$> seq 0 n)) = (n `min` 5)%nat.
Proof.
  destruct (decide (n < 5)%nat) as [Hlt|Hge].
  { do 5 (destruct n as [|n]; [by vm_compute|]). lia. }
  rewrite Nat.min_r by lia. change 5%nat with (length departments).
  apply Permutation_length, NoDup_Permutation.
  - apply NoDup_remove_dups.
  - by apply (bool_decide_unpack _).
  - intros x. rewrite elem_of_remove_dups, list_elem_of_fmap. split.
    + intros (i & -> & _). eapply list_elem_of_lookup_2, bench_dept_lookup.
    + intros (j & Hj)%list_elem_of_lookup_1.
      pose proof (lookup_lt_Some _ _ _ Hj) as Hlen. cbn in Hlen.
      exists j. split.
      * unfold bench_dept. rewrite Nat.mod_small by done. by rewrite Hj.
      * apply elem_of_seq. lia.
Qed.

Section benchmark.
Context `{Runtime}.
Variable p : CSVProcessor.

Lemma processed_tokens σ jobID filePath l r f header rows :
  fs σ !! filePath = Some f →
  tokens f = header :: rows →
  three_fields header →
  Forall three_fields rows →
  denied σ !! outputPath p jobID = None →
  processed p jobID filePath σ l r
  = let s := scan rows ∅ 0 (TotalRecords r) in
    at_job σ l
      (completed ("/download/" +:+ filepath_Base (outputPath p jobID))
         (default 0 (head (tail (clock σ))) - default 0 (head (clock σ)))
         (Z.of_nat (size (totals s))) (accepted s) r)
      (delete filePath (<[outputPath p jobID := artifact (totals s)]> (fs σ)))
      (tail (tail (clock σ))) unlocked.
Proof.
  intros Hfs Htok (n & a & b & c & ->) Hrows Hden.
  unfold processed. rewrite Hfs, Htok. cbn.
  destruct (scan_shaped rows Hrows ∅ 0 (TotalRecords r)) as [-> _].
  by rewrite Hden.
Qed.


End benchmark.

(** ** The middleware chain *)

Arguments cors_headers : simpl never.

Lemma prefix_app sub post : String.prefix sub (sub +:+ post) = true.
Proof.
  induction sub as [|c sub IH]; [by destruct post|].
  change (String c sub +:+ post) with (String c (sub +:+ post)).
  cbn [String.prefix]. destruct (ascii_dec c c); [exact IH|done].
Qed.

Lemma strings_Contains_app pre sub post :
  strings_Contains (pre +:+ sub +:+ post) sub = true.
Proof.
  induction pre as [|c pre IH].
  - change ("" +:+ sub +:+ post) with (sub +:+ post).
    destruct (sub +:+ post) eqn:Heq; cbn [strings_Contains];
      by rewrite <- Heq, prefix_app.
  - change (String c pre +:+ sub +:+ post) with (String c (pre +:+ sub +:+ post)).
    cbn [strings_Contains]. rewrite IH. apply orb_true_r.
Qed.

Lemma strings_Contains_nonempty s c sub :
  strings_Contains s (String c sub) = true → s ≠ "".
Proof. by intros Hc ->. Qed.

Lemma Header_set key value (c : gin.Context) :
  value ≠ "" →
  gin.Header key value c
  = {| gin.request := gin.request c; gin.index := gin.index c;
       gin.status := gin.status c;
       gin.header := <[key := value]> (gin.header c); gin.body := gin.body c |}.
Proof. intros Hv. unfold gin.Header. by rewrite decide_False. Qed.

(** What [CORS] hands to the rest of the chain, or aborts with. *)
Lemma CORS_sets_headers next req i :
  CORS next {| gin.request := req; gin.index := i; gin.status := 200;
               gin.header := ∅; gin.body := None |}
  = if decide (gin.Method req = "OPTIONS")
    then {| gin.request := req; gin.index := gin.abortIndex; gin.status := 204;
            gin.header := cors_headers (gin.Header_Get req "Origin");
            gin.body := None |}
    else next {| gin.request := req; gin.index := i; gin.status := 200;
                 gin.header := cors_headers (gin.Header_Get req "Origin");
                 gin.body := None |}.
Proof.
  unfold CORS, cors_headers. cbv zeta. cbn [gin.request].
  destruct (strings_Contains _ "localhost" || strings_Contains _ "127.0.0.1") eqn:Hc.
  - rewrite (Header_set "Access-Control-Allow-Origin").
    2:{ apply orb_true_iff in Hc as [Hc|Hc]; by eapply strings_Contains_nonempty. }
    rewrite !Header_set by discriminate.
    cbn [gin.request gin.index gin.status gin.header gin.body].
    rewrite insert_empty. reflexivity.
  - rewrite !Header_set by discriminate.
    cbn [gin.request gin.index gin.status gin.header gin.body]. reflexivity.
Qed.

Lemma loop_step next (handlers : list gin.HandlerFunc) n c i (h : gin.HandlerFunc) :
  gin.index c = Z.of_nat i →
  handlers !! i = Some h →
  gin.loop next handlers (S n) c
  = gin.loop next handlers n (gin.set_index (gin.index (h next c) + 1) (h next c)).
Proof.
  intros Hi Hh. cbn [gin.loop]. unfold gin.HandlerFunc in *.
  pose proof (lookup_lt_Some handlers i h Hh) as Hlt.
  rewrite bool_decide_true by lia.
  by rewrite Hi, Nat2Z.id, Hh.
Qed.

Lemma loop_stop next handlers n c :
  Z.of_nat (length handlers) ≤ gin.index c → gin.loop next handlers n c = c.
Proof.
  intros Hi. destruct n; [done|]. cbn [gin.loop]. unfold gin.HandlerFunc in *.
  by rewrite bool_decide_false by lia.
Qed.

Lemma Next_S handlers depth c :
  gin.Next handlers (S depth) c
  = gin.loop (gin.Next handlers depth) handlers (length handlers)
      (gin.set_index (gin.index c + 1) c).
Proof. reflexivity. Qed.

(** What [CORS] is run on. *)
Lemma route_enters_CORS handler req :
  gin.handle (route handler) req
  = let c := CORS (gin.Next (route handler) 3)
               {| gin.request := req; gin.index := 0; gin.status := 200;
                  gin.header := ∅; gin.body := None |} in
    gin.loop (gin.Next (route handler) 3) (route handler) 2
      (gin.set_index (gin.index c + 1) c).
Proof.
  unfold gin.handle. change (length (route handler)) with 3%nat.
  rewrite Next_S. change (length (route handler)) with 3%nat.
  by rewrite (loop_step _ _ 2 _ 0%nat CORS).
Qed.

Lemma route_preflight handler req :
  gin.Method req = "OPTIONS" →
  gin.handle (route handler) req
  = {| gin.request := req; gin.index := 64; gin.status := 204;
       gin.header := cors_headers (gin.Header_Get req "Origin");
       gin.body := None |}.
Proof.
  intros Hm. rewrite route_enters_CORS. cbv zeta.
  rewrite CORS_sets_headers, decide_True by done.
  apply loop_stop. change (3 ≤ 64). lia.
Qed.

(** Past [CORS], for a request that is not a preflight. *)
Lemma route_past_CORS handler req :
  gin.Method req ≠ "OPTIONS" →
  gin.handle (route handler) req
  = let c := SimpleAuth (gin.Next (route handler) 2)
               {| gin.request := req; gin.index := 1; gin.status := 200;
                  gin.header := cors_headers (gin.Header_Get req "Origin");
                  gin.body := None |} in
    let c := gin.loop (gin.Next (route handler) 2) (route handler) 2
               (gin.set_index (gin.index c + 1) c) in
    gin.loop (gin.Next (route handler) 3) (route handler) 2
      (gin.set_index (gin.index c + 1) c).
Proof.
  intros Hm. rewrite route_enters_CORS. cbv zeta.
  rewrite CORS_sets_headers, decide_False by done.
  rewrite Next_S. change (length (route handler)) with 3%nat.
  by rewrite (loop_step _ _ 2 _ 1%nat SimpleAuth).
Qed.

Lemma cors_headers_content_type origin :
  cors_headers origin !! "Content-Type" = None.
Proof.
  unfold cors_headers. rewrite !lookup_insert_ne by discriminate.
  destruct (_ || _); [|apply lookup_empty].
  by rewrite lookup_singleton_ne by discriminate.
Qed.

Lemma route_unauthorized handler req :
  gin.Method req ≠ "OPTIONS" →
  gin.Header_Get req "X-API-Key" ≠ "" →
  gin.Header_Get req "X-API-Key" ≠ "demo-api-key-12345" →
  gin.handle (route handler) req
  = {| gin.request := req; gin.index := 65; gin.status := 401;
       gin.header := <["Content-Type" := "application/json; charset=utf-8"]>
                       (cors_headers (gin.Header_Get req "Origin"));
       gin.body := Some [("error", "Invalid API key")] |}.
Proof.
  intros Hm Hk1 Hk2. rewrite route_past_CORS by done. cbv zeta.
  set (c1 := {| gin.request := req; gin.index := 1; gin.status := 200;
                gin.header := cors_headers (gin.Header_Get req "Origin");
                gin.body := None |}).
  assert (SimpleAuth (gin.Next (route handler) 2) c1
          = {| gin.request := req; gin.index := 63; gin.status := 401;
               gin.header := <["Content-Type" := "application/json; charset=utf-8"]>
                               (cors_headers (gin.Header_Get req "Origin"));
               gin.body := Some [("error", "Invalid API key")] |}) as ->.
  { unfold SimpleAuth. cbv zeta. unfold gin.GetHeader.
    change (gin.request c1) with req.
    rewrite decide_False, decide_True by done.
    unfold gin.Abort, gin.JSON, gin.set_index, c1.
    cbn [gin.index gin.request gin.status gin.header gin.body].
    by rewrite cors_headers_content_type. }
  rewrite (loop_stop (gin.Next (route handler) 2)) by (change (3 ≤ 64); lia).
  apply loop_stop. change (3 ≤ 65). lia.
Qed.

Lemma route_authorized f req :
  gin.Method req ≠ "OPTIONS" →
  gin.Header_Get req "X-API-Key" = "" ∨
  gin.Header_Get req "X-API-Key" = "demo-api-key-12345" →
  (∀ c, gin.index c ≤ gin.index (f c)) →
  gin.handle (route (λ _, f)) req
  = let c := f {| gin.request := req; gin.index := 2; gin.status := 200;
                  gin.header := cors_headers (gin.Header_Get req "Origin");
                  gin.body := None |} in
    gin.set_index (gin.index c + 3) c.
Proof.
  intros Hm Hk Hf. rewrite route_past_CORS by done. cbv zeta.
  set (c1 := {| gin.request := req; gin.index := 1; gin.status := 200;
                gin.header := cors_headers (gin.Header_Get req "Origin");
                gin.body := None |}).
  set (c2 := {| gin.request := req; gin.index := 2; gin.status := 200;
                gin.header := cors_headers (gin.Header_Get req "Origin");
                gin.body := None |}).
  assert (gin.Next (route (λ _, f)) 2 c1
          = gin.set_index (gin.index (f c2) + 1) (f c2)) as Hnext.
  { rewrite Next_S. change (length (route (λ _, f))) with 3%nat.
    change (gin.set_index (gin.index c1 + 1) c1) with c2.
    rewrite (loop_step _ _ 2 _ 2%nat (λ _, f)) by done.
    apply loop_stop. change (3 ≤ gin.index (f c2) + 1). specialize (Hf c2).
    change (gin.index c2) with 2 in Hf. lia. }
  assert (SimpleAuth (gin.Next (route (λ _, f)) 2) c1
          = gin.set_index (gin.index (f c2) + 1) (f c2)) as ->.
  { unfold SimpleAuth. cbv zeta. unfold gin.GetHeader.
    change (gin.request c1) with req.
    destruct Hk as [Hk|Hk]; rewrite Hk.
    - by rewrite decide_True.
    - rewrite decide_False by discriminate.
      by rewrite decide_False by (intros Hne; by apply Hne). }
  specialize (Hf c2). change (gin.index c2) with 2 in Hf.
  rewrite (loop_stop (gin.Next (route (λ _, f)) 2))
    by (change (3 ≤ gin.index (f c2) + 1 + 1); lia).
  rewrite loop_stop by (change (3 ≤ gin.index (f c2) + 1 + 1 + 1); lia).
  unfold gin.set_index. cbn [gin.index gin.request gin.status gin.header gin.body].
  f_equal. lia.
Qed.

(** X20: a preflight request is answered by [CORS] alone.  For every
    request with method OPTIONS, whatever its API key and whatever the
    route's handler, the response is 204 with the CORS headers and no
    body: neither [SimpleAuth] nor the handler has a say. *)
Theorem X20_preflight_skips_auth handler req :
  gin.Method req = "OPTIONS" →
  gin.status (gin.handle (route handler) req) = 204 ∧
  gin.body (gin.handle (route handler) req) = None ∧
  gin.header (gin.handle (route handler) req)
  = cors_headers (gin.Header_Get req "Origin") ∧
  ∀ handler', gin.handle (route handler') req = gin.handle (route handler) req.
Proof.
  intros Hm. rewrite route_preflight by done.
  repeat split. intros handler'. by rewrite route_preflight.
Qed.

(** X21: a wrong API key stops the request at [SimpleAuth].  For every
    request that is not a preflight and carries a key that is neither empty
    nor the demo key, the response is 401 with the body
    [{"error": "Invalid API key"}], on top of the CORS headers, and the
    route's handler is not run. *)
Theorem X21_wrong_key_rejected handler req :
  gin.Method req ≠ "OPTIONS" →
  gin.Header_Get req "X-API-Key" ≠ "" →
  gin.Header_Get req "X-API-Key" ≠ "demo-api-key-12345" →
  gin.status (gin.handle (route handler) req) = 401 ∧
  gin.body (gin.handle (route handler) req) = Some [("error", "Invalid API key")] ∧
  (∀ key, key ≠ "Content-Type" →
          gin.header (gin.handle (route handler) req) !! key
          = cors_headers (gin.Header_Get req "Origin") !! key) ∧
  ∀ handler', gin.handle (route handler') req = gin.handle (route handler) req.
Proof.
  intros Hm Hk1 Hk2. rewrite route_unauthorized by done.
  repeat split.
  - intros key Hkey. cbn [gin.header]. by rewrite lookup_insert_ne.
  - intros handler'. by rewrite route_unauthorized.
Qed.

(** X22: the API key is optional.  A request that is not a preflight
    reaches the route's handler when it carries no key at all exactly as
    when it carries the demo key: the handler (one that does not call
    [c.Next] and does not move the chain backwards) is run once, on a
    context with status 200, the CORS headers and no body, and what it
    returns is the response. *)
Theorem X22_missing_key_admitted f req :
  gin.Method req ≠ "OPTIONS" →
  gin.Header_Get req "X-API-Key" = "" ∨
  gin.Header_Get req "X-API-Key" = "demo-api-key-12345" →
  (∀ c, gin.index c ≤ gin.index (f c)) →
  ∃ c,
    c = f {| gin.request := req; gin.index := 2; gin.status := 200;
             gin.header := cors_headers (gin.Header_Get req "Origin");
             gin.body := None |} ∧
    gin.status (gin.handle (route (λ _, f)) req) = gin.status c ∧
    gin.header (gin.handle (route (λ _, f)) req) = gin.header c ∧
    gin.body (gin.handle (route (λ _, f)) req) = gin.body c.
Proof.
  intros Hm Hk Hf. rewrite route_authorized by done. cbv zeta.
  eexists. split; [reflexivity|]. done.
Qed.

(** X23: the origin check of [CORS] is a substring test.  On a preflight,
    every origin that contains "localhost" or "127.0.0.1" anywhere is
    echoed in [Access-Control-Allow-Origin]; an origin that contains
    neither gets no such header; and credentials are allowed in every
    case. *)
Theorem X23_origin_substring handler req :
  gin.Method req = "OPTIONS" →
  let origin := gin.Header_Get req "Origin" in
  let response := gin.handle (route handler) req in
  (∀ pre post,
     origin = pre +:+ "localhost" +:+ post ∨ origin = pre +:+ "127.0.0.1" +:+ post →
     gin.header response !! "Access-Control-Allow-Origin" = Some origin) ∧
  (strings_Contains origin "localhost" = false →
   strings_Contains origin "127.0.0.1" = false →
   gin.header response !! "Access-Control-Allow-Origin" = None) ∧
  gin.header response !! "Access-Control-Allow-Credentials" = Some "true".
Proof.
  intros Hm origin response. unfold response. rewrite route_preflight by done.
  cbn [gin.header]. fold origin. unfold cors_headers.
  split; [|split].
  - intros pre post Ho. rewrite !lookup_insert_ne by discriminate.
    assert (strings_Contains origin "localhost" || strings_Contains origin "127.0.0.1"
            = true) as ->.
    { apply orb_true_iff. destruct Ho as [->| ->]; [left|right];
        apply strings_Contains_app. }
    apply lookup_singleton_eq.
  - intros -> ->. rewrite !lookup_insert_ne by discriminate. apply lookup_empty.
  - apply lookup_insert_eq.
Qed.

(** ** The further properties at concrete inputs *)

Lemma X1_witness :
  exec (updateJobError "job-2" "lost") (demo_submitted demo_lines)
  = Ok tt (demo_submitted demo_lines) ∧
  exec (updateJobProgress "job-2" 1000) (demo_submitted demo_lines)
  = Ok tt (demo_submitted demo_lines).
Proof.
  apply (X1_updates_ignore_unknown_id (demo_submitted demo_lines) "job-2" "lost" 1000).
  - by vm_compute.
  - by vm_compute.
Defined.

Lemma X2_witness :
  ∃ σ' l,
    exec (ProcessCSVAsync "uploads/in.csv") (demo_state demo_lines) = Ok "job-1" σ' ∧
    exec (GetJobStatus "job-1") σ' = Ok (Some l, true) σ'.
Proof.
  destruct (X2_submit_then_query "uploads/in.csv" (demo_state demo_lines) "job-1" [])
    as (σ' & l & H1 & H2 & _).
  - reflexivity.
  - reflexivity.
  - exists σ', l. split; [exact H1|exact H2].
Defined.

Lemma X3_witness :
  ∃ σ' l1 l2,
    exec (id1 ← ProcessCSVAsync "a.csv"; id2 ← ProcessCSVAsync "b.csv"; mret (id1, id2))
      (NewCSVProcessor_state ∅ ∅ ["job-1"; "job-2"] [])
    = Ok ("job-1", "job-2") σ' ∧
    jobs σ' !! "job-1" = Some l1 ∧ jobs σ' !! "job-2" = Some l2.
Proof.
  destruct (X3_two_submissions (NewCSVProcessor_state ∅ ∅ ["job-1"; "job-2"] [])
              "a.csv" "b.csv" "job-1" "job-2" [])
    as (σ' & l1 & l2 & H1 & _ & H2 & _ & H3 & _).
  - reflexivity.
  - reflexivity.
  - discriminate.
  - exists σ', l1, l2. split; [exact H1|]. split; [exact H2|exact H3].
Defined.


Lemma X5_witness :
  ∃ σ' r',
    exec (processCSVFile demo_processor "job-1" "uploads/in.csv")
      (demo_submitted demo_lines) = Ok tt σ' ∧
    jobsMutex σ' = unlocked ∧
    jobs σ' = jobs (demo_submitted demo_lines) ∧
    heap σ' = <[demo_job := r']> (heap (demo_submitted demo_lines)).
Proof.
  destruct (X5_processCSVFile_frame demo_processor (demo_submitted demo_lines)
              "job-1" "uploads/in.csv" demo_job (new_job "job-1"))
    as (σ' & r' & H1 & H2 & H3 & H4 & _).
  - apply demo_submitted_registered.
  - exists σ', r'. split; [exact H1|]. split; [exact H2|]. split; [exact H3|exact H4].
Defined.

Lemma X6_witness :
  ∃ r',
    Status r' = "error" ∧
    Error r' = "Error reading CSV: record on line " +:+ strconv.Itoa 5
               +:+ ": wrong number of fields" ∧
    exec (processCSVFile demo_processor "job-1" "uploads/in.csv")
      (set_fs <[ "uploads/in.csv" :=
                   Upload (header_line ::
                           (tail demo_lines ++ [csv.Fields 5 ["Sales"; "2023-01-17"]])%list) ]>
         (demo_submitted demo_lines))
    = Ok tt
        (set_clock (tail (clock (demo_submitted demo_lines)))
           (set_heap <[demo_job := r']>
              (set_fs <[ "uploads/in.csv" :=
                           Upload (header_line ::
                                   (tail demo_lines
                                    ++ [csv.Fields 5 ["Sales"; "2023-01-17"]])%list) ]>
                 (demo_submitted demo_lines)))).
Proof.
  destruct (X6_first_bad_row_reported demo_processor (demo_submitted demo_lines)
              "job-1" "uploads/in.csv" demo_job (new_job "job-1") header_line
              (tail demo_lines) 5 ["Sales"; "2023-01-17"])
    as (r' & H1 & H2 & H3).
  - apply demo_submitted_registered.
  - by eexists _, _, _, _.
  - repeat constructor; by eexists _, _, _, _.
  - discriminate.
  - exists r'. split; [exact H1|]. split; [exact H2|]. exact (H3 []).
Defined.



Lemma X9_witness :
  ∃ σ' r',
    exec (processCSVFile demo_processor "job-1" "uploads/in.csv")
      (demo_submitted demo_lines) = Ok tt σ' ∧
    heap σ' !! demo_job = Some r' ∧
    (Status r' = "completed" →
     0 ≤ DepartmentCount r' ≤ TotalRecords r' ∧
     TotalRecords r' < Z.of_nat (length (tokens (Upload demo_lines))) ∧
     (DepartmentCount r' = 0 ↔ TotalRecords r' = 0)).
Proof.
  apply (X9_counts_of_completed_job demo_processor (demo_submitted demo_lines)
           "job-1" "uploads/in.csv" demo_job (new_job "job-1") (Upload demo_lines)).
  - apply demo_submitted_registered.
  - by vm_compute.
  - by vm_compute.
Defined.


Lemma X11_witness :
  ∃ σ2 r2',
    exec (processCSVFile demo_processor "job-1" "uploads/in.csv") demo_done = Ok tt σ2 ∧
    heap σ2 !! demo_job = Some r2' ∧
    Status r2' = "error" ∧
    Error r2' = "Failed to open file: open uploads/in.csv: no such file or directory".
Proof.
  destruct (X11_second_run_fails_to_open demo_processor (demo_submitted demo_lines)
              "job-1" "uploads/in.csv" demo_job (new_job "job-1") demo_done
              (completed "/download/result_job-1.csv" 15 2 3 (new_job "job-1"))
              "job-1" demo_job
              (completed "/download/result_job-1.csv" 15 2 3 (new_job "job-1")))
    as (σ2 & r2' & H1 & H2 & H3 & H4 & _).
  - apply demo_submitted_registered.
  - by vm_compute.
  - by vm_compute.
  - reflexivity.
  - by vm_compute.
  - exists σ2, r2'. split; [exact H1|]. split; [exact H2|]. split; [exact H3|exact H4].
Defined.

Lemma X12_witness :
  ∃ σ' r',
    exec (processCSVFile demo_processor "job-1" "uploads/in.csv")
      (set_fs <[ "uploads/in.csv" := artifact ({[ "Sales" := 350 ]} : gmap string Z) ]>
         (demo_submitted demo_lines)) = Ok tt σ' ∧
    heap σ' !! demo_job = Some r' ∧
    Status r' = "error" ∧
    Error r' = "Failed to read header: record on line 1: wrong number of fields".
Proof.
  destruct (X12_artifact_rejected_as_input demo_processor
              (set_fs <[ "uploads/in.csv" :=
                           artifact ({[ "Sales" := 350 ]} : gmap string Z) ]>
                 (demo_submitted demo_lines))
              "job-1" "uploads/in.csv" demo_job (new_job "job-1")
              ({[ "Sales" := 350 ]} : gmap string Z))
    as (σ' & r' & H1 & H2 & H3 & H4 & _).
  - apply registered_set_fs, demo_submitted_registered.
  - apply lookup_insert_eq.
  - exists σ', r'. split; [exact H1|]. split; [exact H2|]. split; [exact H3|exact H4].
Defined.


Lemma X14_witness :
  ∃ q,
    pool racing_config !! 1%nat = Some q ∧
    q ≠ Panic ∧
    ∀ a k, q = Vis a k → a ≠ uuid_New → perform a (shared racing_config) ≠ Fault.
Proof.
  eexists. split; [by vm_compute|].
  eapply (X14_no_goroutine_panics demo_processor racing_config 1%nat).
  - apply played_reachable.
  - by vm_compute.
Defined.

Lemma X15_witness :
  ∃ a k b k',
    pool racing_config !! 1%nat = Some (Vis a k) ∧
    pool racing_config !! 2%nat = Some (Vis b k') ∧
    writes a ∧ ¬ accesses b.
Proof.
  eexists _, _, _, _. split; [by vm_compute|]. split; [by vm_compute|].
  split; [exact I|].
  eapply (X15_writes_are_exclusive demo_processor racing_config 1%nat 2%nat).
  - apply played_reachable.
  - discriminate.
  - by vm_compute.
  - by vm_compute.
  - exact I.
Defined.

Lemma X16_witness :
  (readers (jobsMutex (shared racing_config))
   + (if writer (jobsMutex (shared racing_config)) then 1 else 0))%nat
  = busy (pool racing_config) ∧
  ∀ i a k,
    pool racing_config !! i = Some (Vis a k) → critical a = true →
    ∃ r σ', perform a (shared racing_config) = Ok r σ'.
Proof.
  apply (X16_mutex_counts_critical_sections demo_processor racing_config).
  apply played_reachable.
Defined.

Lemma X17_witness :
  ∃ r, heap (shared demo_config) !! demo_job = Some r ∧ JobID r = "job-1".
Proof.
  apply (X17_registry_points_to_own_record demo_processor demo_config "job-1" demo_job).
  - apply played_reachable.
  - by vm_compute.
Defined.



Lemma X20_witness :
  gin.status (gin.handle (route (λ _, health))
                (demo_request "OPTIONS" "http://localhost:3000" "wrong")) = 204 ∧
  gin.body (gin.handle (route (λ _, health))
              (demo_request "OPTIONS" "http://localhost:3000" "wrong")) = None.
Proof.
  destruct (X20_preflight_skips_auth (λ _, health)
              (demo_request "OPTIONS" "http://localhost:3000" "wrong"))
    as (H1 & H2 & _).
  - reflexivity.
  - split; [exact H1|exact H2].
Defined.

Lemma X21_witness :
  gin.status (gin.handle (route (λ _, health))
                (demo_request "GET" "http://localhost:3000" "wrong")) = 401 ∧
  gin.body (gin.handle (route (λ _, health))
              (demo_request "GET" "http://localhost:3000" "wrong"))
  = Some [("error", "Invalid API key")].
Proof.
  destruct (X21_wrong_key_rejected (λ _, health)
              (demo_request "GET" "http://localhost:3000" "wrong"))
    as (H1 & H2 & _).
  - by vm_compute.
  - by vm_compute.
  - by vm_compute.
  - split; [exact H1|exact H2].
Defined.

Lemma X22_witness :
  gin.status (gin.handle (route (λ _, health))
                (demo_request "GET" "http://localhost:3000" "")) = 200 ∧
  gin.body (gin.handle (route (λ _, health))
              (demo_request "GET" "http://localhost:3000" ""))
  = Some [("status", "healthy"); ("service", "csv-processor")].
Proof.
  destruct (X22_missing_key_admitted health
              (demo_request "GET" "http://localhost:3000" ""))
    as (c & -> & H1 & _ & H3).
  - by vm_compute.
  - left. reflexivity.
  - intros c. apply Z.le_refl.
  - split; [exact H1|exact H3].
Defined.

Lemma X23_witness :
  gin.header (gin.handle (route (λ _, health))
                (demo_request "OPTIONS" "http://localhost.example.org" ""))
    !! "Access-Control-Allow-Origin"
  = Some "http://localhost.example.org".
Proof.
  pose proof (X23_origin_substring (λ _, health)
                (demo_request "OPTIONS" "http://localhost.example.org" "") eq_refl)
    as Horigin.
  cbv zeta in Horigin. destruct Horigin as (Hecho & _).
  apply (Hecho "http://" ".example.org"). left. reflexivity.
Defined.
